(** * A d-ary min-heap priority queue with an identity -> position map

    Shallow embedding of [python_doctest_devstral-2512_code.py]
    (classes [Item] and [DHeap]) and the proofs of its invariants.

    Conventions of the embedding:
    - Python [int] costs and identities are [Z]; list positions, lengths
      and the arity (validated [>= 2] by the constructor, and never
      written afterwards) are [nat]: every index the code computes is
      non-negative ([index - 1] under [index > 0], [d * index + 1],
      [len(self.heap) - 1] after an append);
    - [self.heap] is a [list Item], [self.position_map] a [gmap Z nat];
    - every method is a computation in the state-and-exception monad [M]:
      it takes the object's state and returns a result together with the
      state it leaves behind, also when it raises;
    - the two [while] loops carry a bound on the number of iterations;
      [OutOfFuel] is the result of exhausting it, and [exec_outcome] shows
      that no call on a well-formed heap exhausts the bounds chosen
      ([index + 1] going up, [len(self.heap) + 1] going down);
    - an [Item] is modelled as a value: the heap stores the caller's object
      and writes its [cost] in place, so the results hold for clients that
      neither write the fields of an item nor hand it to a second heap
      while a heap holds it. *)

From Stdlib Require Import ZArith Lia List Permutation Sorted.
From stdpp Require Import gmap list strings pretty.

(** ** Data model *)

Record Item := mkItem { number : Z; cost : Z }.

(** [Item.__eq__]: two items are equal when their numbers are. *)
Definition Item_eq (a b : Item) : bool := bool_decide (number a = number b).

Record DHeap := mkDHeap {
  d : nat;
  heap : list Item;
  position_map : gmap Z nat
}.

(** ** Exceptions and the monad *)

Inductive exn :=
| ValueError (msg : string)
| IndexError
| KeyError
| ZeroDivisionError.

Inductive result (A : Type) :=
| Ok (a : A)
| Raise (e : exn)
| OutOfFuel.
Arguments Ok {A} a.
Arguments Raise {A} e.
Arguments OutOfFuel {A}.

Definition M (A : Type) : Type := DHeap -> result A * DHeap.

Definition ret {A} (a : A) : M A := fun h => (Ok a, h).

Definition bind {A B} (m : M A) (k : A -> M B) : M B :=
  fun h =>
    match m h with
    | (Ok a, h') => k a h'
    | (Raise e, h') => (Raise e, h')
    | (OutOfFuel, h') => (OutOfFuel, h')
    end.

Definition raise {A} (e : exn) : M A := fun h => (Raise e, h).

Definition out_of_fuel {A} : M A := fun h => (OutOfFuel, h).

Notation "x <- m ;; k" := (bind m (fun x => k))
  (at level 100, m at level 99, k at level 200, right associativity).
Notation "m ;;; k" := (bind m (fun _ => k))
  (at level 100, k at level 200, right associativity).

(** ** Primitive reads and writes of the two fields *)

(** [len(self.heap)] *)
Definition heap_len : M nat := fun h => (Ok (length (heap h)), h).

(** [self.heap[i]] *)
Definition heap_get (i : nat) : M Item :=
  fun h =>
    match heap h !! i with
    | Some x => (Ok x, h)
    | None => (Raise IndexError, h)
    end.

(** [self.heap[i] = x] *)
Definition heap_set (i : nat) (x : Item) : M unit :=
  fun h =>
    if decide (i < length (heap h))
    then (Ok tt, mkDHeap (d h) (<[i:=x]> (heap h)) (position_map h))
    else (Raise IndexError, h).

(** [self.heap.append(x)] *)
Definition heap_append (x : Item) : M unit :=
  fun h => (Ok tt, mkDHeap (d h) (heap h ++ [x]) (position_map h)).

(** [self.heap.pop()] *)
Definition heap_pop_last : M Item :=
  fun h =>
    match last (heap h) with
    | Some x => (Ok x, mkDHeap (d h) (removelast (heap h)) (position_map h))
    | None => (Raise IndexError, h)
    end.

(** [k in self.position_map] *)
Definition map_mem (k : Z) : M bool :=
  fun h => (Ok (bool_decide (is_Some (position_map h !! k))), h).

(** [self.position_map[k]] *)
Definition map_get (k : Z) : M nat :=
  fun h =>
    match position_map h !! k with
    | Some i => (Ok i, h)
    | None => (Raise KeyError, h)
    end.

(** [self.position_map[k] = i] *)
Definition map_set (k : Z) (i : nat) : M unit :=
  fun h => (Ok tt, mkDHeap (d h) (heap h) (<[k:=i]> (position_map h))).

(** [del self.position_map[k]] *)
Definition map_del (k : Z) : M unit :=
  fun h =>
    match position_map h !! k with
    | Some _ => (Ok tt, mkDHeap (d h) (heap h) (delete k (position_map h)))
    | None => (Raise KeyError, h)
    end.

(** ** The class [DHeap] *)

(** [DHeap.__init__] *)
Definition __init__ (arity : Z) : result DHeap :=
  if decide (arity < 2)%Z
  then Raise (ValueError "Heap arity must be at least 2")
  else Ok (mkDHeap (Z.to_nat arity) [] ∅).

(** [DHeap._parent]: [(index - 1) // self.d], called with [index > 0]. *)
Definition _parent (index : nat) : M nat :=
  fun h =>
    if decide (d h = 0) then (Raise ZeroDivisionError, h)
    else (Ok ((index - 1) / d h), h).

(** [DHeap._children]: [range(start, min(end, len(self.heap)))]. *)
Definition _children (index : nat) : M (list nat) :=
  fun h =>
    let start := d h * index + 1 in
    let end_ := start + d h in
    (Ok (seq start (Nat.min end_ (length (heap h)) - start)), h).

(** [DHeap._swap] *)
Definition _swap (i j : nat) : M unit :=
  hj <- heap_get j ;;
  hi <- heap_get i ;;
  heap_set i hj ;;;
  heap_set j hi ;;;
  x <- heap_get i ;;
  map_set (number x) i ;;;
  y <- heap_get j ;;
  map_set (number y) j.

(** [DHeap._bubble_up]: the body of the [while index > 0] loop, at most
    [fuel] times. *)
Fixpoint bubble_up_loop (fuel : nat) (index : nat) : M unit :=
  match fuel with
  | O => out_of_fuel
  | S fuel' =>
      if decide (0 < index) then
        parent <- _parent index ;;
        x <- heap_get index ;;
        p <- heap_get parent ;;
        if decide (cost x < cost p)%Z then
          _swap index parent ;;;
          bubble_up_loop fuel' parent
        else ret tt
      else ret tt
  end.

Definition _bubble_up (index : nat) : M unit :=
  bubble_up_loop (S index) index.

(** [min(children, key=lambda i: self.heap[i].cost)]: the key of every
    child is read once, in order, and the first child of least key wins.
    [min] of an empty list raises a [ValueError]; [_bubble_down] leaves its
    loop on an empty list before it gets there. *)
Fixpoint min_scan (best : nat) (best_key : Z) (rest : list nat) : M nat :=
  match rest with
  | [] => ret best
  | c :: rest' =>
      x <- heap_get c ;;
      if decide (cost x < best_key)%Z
      then min_scan c (cost x) rest'
      else min_scan best best_key rest'
  end.

Definition min_by_cost (children : list nat) : M nat :=
  match children with
  | [] => raise (ValueError "min() arg is an empty sequence")
  | c :: rest => x <- heap_get c ;; min_scan c (cost x) rest
  end.

(** [DHeap._bubble_down]: the body of the [while True] loop, at most
    [fuel] times. *)
Fixpoint bubble_down_loop (fuel : nat) (index : nat) : M unit :=
  match fuel with
  | O => out_of_fuel
  | S fuel' =>
      children <- _children index ;;
      match children with
      | [] => ret tt
      | _ :: _ =>
          min_child <- min_by_cost children ;;
          x <- heap_get index ;;
          m <- heap_get min_child ;;
          if decide (cost x > cost m)%Z then
            _swap index min_child ;;;
            bubble_down_loop fuel' min_child
          else ret tt
      end
  end.

Definition _bubble_down (index : nat) : M unit :=
  n <- heap_len ;;
  bubble_down_loop (S n) index.

(** [DHeap.insert] *)
Definition insert (item : Item) : M unit :=
  present <- map_mem (number item) ;;
  if present : bool then
    raise (ValueError ("Item with identity " +:+ pretty (number item)
                         +:+ " already exists"))
  else
    heap_append item ;;;
    n <- heap_len ;;
    map_set (number item) (n - 1) ;;;
    n' <- heap_len ;;
    _bubble_up (n' - 1).

(** [DHeap.pop] *)
Definition pop : M (option Item) :=
  n <- heap_len ;;
  if decide (n = 0) then ret None
  else
    min_item <- heap_get 0 ;;
    last_item <- heap_pop_last ;;
    map_del (number min_item) ;;;
    n' <- heap_len ;;
    if decide (n' = 0) then ret (Some min_item)
    else
      heap_set 0 last_item ;;;
      map_set (number last_item) 0 ;;;
      _bubble_down 0 ;;;
      ret (Some min_item).

(** [DHeap.front] *)
Definition front : M (option Item) :=
  n <- heap_len ;;
  if decide (n = 0) then ret None
  else x <- heap_get 0 ;; ret (Some x).

(** [self.heap[index].cost = c] *)
Definition set_cost (index : nat) (c : Z) : M unit :=
  x <- heap_get index ;;
  heap_set index (mkItem (number x) c).

(** [DHeap.increase_priority] *)
Definition increase_priority (item : Item) : M unit :=
  present <- map_mem (number item) ;;
  if negb present then
    raise (ValueError ("Item with identity " +:+ pretty (number item)
                         +:+ " not found"))
  else
    index <- map_get (number item) ;;
    x <- heap_get index ;;
    if decide (cost item < cost x)%Z then
      set_cost index (cost item) ;;;
      _bubble_up index
    else
      raise (ValueError "New cost must be lower than current cost").

(** [DHeap.decrease_priority] *)
Definition decrease_priority (item : Item) : M unit :=
  present <- map_mem (number item) ;;
  if negb present then
    raise (ValueError ("Item with identity " +:+ pretty (number item)
                         +:+ " not found"))
  else
    index <- map_get (number item) ;;
    x <- heap_get index ;;
    if decide (cost item > cost x)%Z then
      set_cost index (cost item) ;;;
      _bubble_down index
    else
      raise (ValueError "New cost must be higher than current cost").

(** [DHeap.contains] *)
Definition contains (item : Item) : M bool := map_mem (number item).

(** [DHeap.__len__] *)
Definition __len__ : M nat := heap_len.

(** [DHeap.is_empty] *)
Definition is_empty : M bool :=
  n <- heap_len ;; ret (bool_decide (n = 0)).

(** Running a computation on what the constructor returned. *)
Definition run {A} (h : result DHeap) (m : M A) : result A * result DHeap :=
  match h with
  | Ok h0 => let '(r, h1) := m h0 in (r, Ok h1)
  | Raise e => (Raise e, Raise e)
  | OutOfFuel => (OutOfFuel, OutOfFuel)
  end.

(** ** Invariants *)

(** Heap order: every non-root position holds a cost at least that of its
    parent position [(i - 1) / d]. *)
Definition heap_ordered (dd : nat) (l : list Item) : Prop :=
  forall i x p, 0 < i -> l !! i = Some x -> l !! ((i - 1) / dd) = Some p ->
    (cost p <= cost x)%Z.

(** Map consistency: the map sends the number of the item at position [i]
    to [i], and has no other entry. *)
Definition map_consistent (l : list Item) (m : gmap Z nat) : Prop :=
  (forall i x, l !! i = Some x -> m !! number x = Some i) /\
  (forall k i, m !! k = Some i -> exists x, l !! i = Some x /\ number x = k).

Record Inv (h : DHeap) : Prop := mkInv {
  inv_arity : 2 <= d h;
  inv_order : heap_ordered (d h) (heap h);
  inv_map : map_consistent (heap h) (position_map h)
}.

(** Heap order with a hole at [k], as [_bubble_up] meets it: position [k]
    may be cheaper than its parent, and the children of [k] are already
    above the parent of [k]. *)
Definition up_hole (dd k : nat) (l : list Item) : Prop :=
  (forall i x p, 0 < i -> i <> k -> l !! i = Some x ->
     l !! ((i - 1) / dd) = Some p -> (cost p <= cost x)%Z) /\
  (forall c x g, 0 < k -> 0 < c -> (c - 1) / dd = k -> l !! c = Some x ->
     l !! ((k - 1) / dd) = Some g -> (cost g <= cost x)%Z).

(** Heap order with a hole at [k], as [_bubble_down] meets it: position [k]
    may be dearer than its children, which are above the parent of [k]. *)
Definition down_hole (dd k : nat) (l : list Item) : Prop :=
  (forall i x p, 0 < i -> (i - 1) / dd <> k -> l !! i = Some x ->
     l !! ((i - 1) / dd) = Some p -> (cost p <= cost x)%Z) /\
  (forall c x g, 0 < k -> 0 < c -> (c - 1) / dd = k -> l !! c = Some x ->
     l !! ((k - 1) / dd) = Some g -> (cost g <= cost x)%Z).

(** What a run of swaps leaves alone: the arity, the items held (as a
    multiset) and the consistency of the map. *)
Definition shuffled (h h' : DHeap) : Prop :=
  d h' = d h /\
  heap h' ≡ₚ heap h /\
  (map_consistent (heap h) (position_map h) ->
   map_consistent (heap h') (position_map h')).

(** The list after [self.heap[i], self.heap[j] = self.heap[j], self.heap[i]]
    when [a] was at [i] and [b] at [j]. *)
Definition swapped (i j : nat) (a b : Item) (l : list Item) : list Item :=
  <[j:=a]> (<[i:=b]> l).

(** ** The public interface as a set of calls *)

Inductive call :=
| Insert (item : Item)
| Pop
| Front
| Contains (item : Item)
| IncreasePriority (item : Item)
| DecreasePriority (item : Item)
| Len
| IsEmpty.

(** What a call hands back: [None], an item, a [bool] or an [int]. *)
Inductive value :=
| VNone
| VItem (x : Item)
| VBool (b : bool)
| VInt (n : nat).

Definition of_optional (o : option Item) : value :=
  match o with Some x => VItem x | None => VNone end.

Definition exec (c : call) : M value :=
  match c with
  | Insert item => insert item ;;; ret VNone
  | Pop => r <- pop ;; ret (of_optional r)
  | Front => r <- front ;; ret (of_optional r)
  | Contains item => b <- contains item ;; ret (VBool b)
  | IncreasePriority item => increase_priority item ;;; ret VNone
  | DecreasePriority item => decrease_priority item ;;; ret VNone
  | Len => n <- __len__ ;; ret (VInt n)
  | IsEmpty => b <- is_empty ;; ret (VBool b)
  end.

(** The states a client can bring a heap to: construct it, then call its
    methods, catching what they raise. *)
Inductive reachable : DHeap -> Prop :=
| reach_init arity h : __init__ arity = Ok h -> reachable h
| reach_call c h r h' : reachable h -> exec c h = (r, h') -> reachable h'.

(** A client that logs the outcome of every call. *)
Fixpoint run_calls (cs : list call) (h : DHeap)
  : list (result value) * DHeap :=
  match cs with
  | [] => ([], h)
  | c :: cs' =>
      let '(r, h1) := exec c h in
      let '(rs, h2) := run_calls cs' h1 in
      (r :: rs, h2)
  end.

(** [1] for an [insert] that returned, [0] for any other outcome. *)
Definition inserted (c : call) (r : result value) : nat :=
  match c, r with
  | Insert _, Ok _ => 1
  | _, _ => 0
  end.

(** [1] for a [pop] that returned an item, [0] for any other outcome. *)
Definition popped (c : call) (r : result value) : nat :=
  match c, r with
  | Pop, Ok (VItem _) => 1
  | _, _ => 0
  end.

Fixpoint count_log (f : call -> result value -> nat)
    (cs : list call) (rs : list (result value)) : nat :=
  match cs, rs with
  | c :: cs', r :: rs' => f c r + count_log f cs' rs'
  | _, _ => 0
  end.

(** A client that pops until [pop] returns [None], at most [fuel] times,
    and collects what it got. *)
Fixpoint pop_all_loop (fuel : nat) : M (list Item) :=
  match fuel with
  | O => out_of_fuel
  | S fuel' =>
      r <- pop ;;
      match r with
      | None => ret []
      | Some x => rest <- pop_all_loop fuel' ;; ret (x :: rest)
      end
  end.

Definition pop_all : M (list Item) :=
  n <- __len__ ;; pop_all_loop (S n).

(** The sample heap of the witnesses: arity 4 after [insert] of
    [(30, 30)], [(10, 10)] and [(20, 20)]. *)
Definition sample_heap : DHeap :=
  mkDHeap 4 [mkItem 10 10; mkItem 30 30; mkItem 20 20]
    (<[20%Z:=2]> (<[10%Z:=0]> (<[30%Z:=1]> ∅))).

(** A client that inserts the items of a list, first to last. *)
Fixpoint insert_all (items : list Item) : M unit :=
  match items with
  | [] => ret tt
  | item :: rest => insert item ;;; insert_all rest
  end.

(** A client that sorts by cost: construct a heap, insert everything, pop
    until [pop] returns [None]. *)
Definition heap_sort (arity : Z) (items : list Item) : result (list Item) :=
  fst (run (__init__ arity) (insert_all items ;;; pop_all)).

(** * Proofs *)

(** ** The doctests of the source, replayed on the model *)

Example doctest_pop :
  fst (run (__init__ 4)
         (insert (mkItem 30 30) ;;; insert (mkItem 10 10) ;;;
          insert (mkItem 20 20) ;;;
          item <- pop ;; n <- __len__ ;; ret (cost <$> item, n)))
  = Ok (Some 10%Z, 2).
Proof. vm_compute. reflexivity. Qed.

Example doctest_increase_priority :
  fst (run (__init__ 4)
         (insert (mkItem 50 50) ;;; insert (mkItem 30 30) ;;;
          a <- front ;;
          increase_priority (mkItem 50 10) ;;;
          b <- front ;; ret (cost <$> a, cost <$> b)))
  = Ok (Some 30%Z, Some 10%Z).
Proof. vm_compute. reflexivity. Qed.

Example doctest_decrease_priority :
  fst (run (__init__ 4)
         (insert (mkItem 10 10) ;;; insert (mkItem 30 30) ;;;
          a <- front ;;
          decrease_priority (mkItem 10 50) ;;;
          b <- front ;; ret (number <$> a, number <$> b)))
  = Ok (Some 10%Z, Some 30%Z).
Proof. vm_compute. reflexivity. Qed.

Example doctest_contains :
  fst (run (__init__ 4)
         (insert (mkItem 50 50) ;;;
          a <- contains (mkItem 50 999) ;;
          b <- contains (mkItem 999 50) ;; ret (a, b)))
  = Ok (true, false).
Proof. vm_compute. reflexivity. Qed.

Example doctest_duplicate :
  fst (run (__init__ 4)
         (insert (mkItem 50 50) ;;; insert (mkItem 50 7)))
  = Raise (ValueError "Item with identity 50 already exists").
Proof. vm_compute. reflexivity. Qed.

(** ** Index arithmetic *)

Lemma parent_lt (dd k : nat) : 0 < k -> (k - 1) / dd < k.
Proof.
  intros Hk. destruct dd as [|dd]; [simpl; lia|].
  pose proof (Nat.Div0.div_le_upper_bound (k - 1) (S dd) (k - 1)) as H.
  assert ((k - 1) / S dd <= k - 1); [|lia].
  apply Nat.Div0.div_le_upper_bound. nia.
Qed.

Lemma parent_of_child (dd k c : nat) :
  1 <= dd -> dd * k + 1 <= c < dd * k + 1 + dd -> (c - 1) / dd = k.
Proof.
  intros Hd Hc. symmetry. apply (Nat.div_unique (c - 1) dd k (c - 1 - dd * k)); lia.
Qed.

Lemma child_of_parent (dd k c : nat) :
  1 <= dd -> 0 < c -> (c - 1) / dd = k -> dd * k + 1 <= c < dd * k + 1 + dd.
Proof.
  intros Hd Hc Hp.
  pose proof (Nat.div_mod (c - 1) dd ltac:(lia)) as Hdm.
  pose proof (Nat.mod_upper_bound (c - 1) dd ltac:(lia)) as Hm.
  rewrite Hp in Hdm. lia.
Qed.

(** ** Lists under a swap *)

Lemma swapped_length i j a b (l : list Item) :
  length (swapped i j a b l) = length l.
Proof. unfold swapped. by rewrite !length_insert. Qed.

Lemma swapped_lookup i j a b (l : list Item) n :
  i <> j -> l !! i = Some a -> l !! j = Some b ->
  swapped i j a b l !! n =
    if decide (n = j) then Some a else if decide (n = i) then Some b else l !! n.
Proof.
  intros Hij Hi Hj. unfold swapped.
  apply lookup_lt_Some in Hi as Hli. apply lookup_lt_Some in Hj as Hlj.
  destruct (decide (n = j)) as [->|Hnj].
  - apply list_lookup_insert_eq. by rewrite length_insert.
  - rewrite list_lookup_insert_ne by done.
    destruct (decide (n = i)) as [->|Hni].
    + by apply list_lookup_insert_eq.
    + by rewrite list_lookup_insert_ne.
Qed.

Lemma insert_cons_perm (l : list Item) j a b :
  l !! j = Some b -> b :: <[j:=a]> l ≡ₚ a :: l.
Proof.
  revert j. induction l as [|x l IH]; intros [|j] Hj; simplify_eq/=.
  - apply Permutation_swap.
  - transitivity (x :: b :: <[j:=a]> l); [apply Permutation_swap|].
    transitivity (x :: a :: l); [|apply Permutation_swap].
    apply Permutation_skip. by apply IH.
Qed.

Lemma swapped_perm i j a b (l : list Item) :
  l !! i = Some a -> l !! j = Some b -> swapped i j a b l ≡ₚ l.
Proof.
  unfold swapped. revert i j.
  induction l as [|x l IH]; intros [|i] [|j] Hi Hj; simplify_eq/=.
  - done.
  - by apply insert_cons_perm.
  - by apply insert_cons_perm.
  - by rewrite IH.
Qed.

Lemma map_consistent_inj (l : list Item) (m : gmap Z nat) i j a b :
  map_consistent l m -> l !! i = Some a -> l !! j = Some b ->
  number a = number b -> i = j.
Proof.
  intros [Hfw _] Hi Hj Hab.
  apply Hfw in Hi. apply Hfw in Hj. rewrite Hab in Hi. congruence.
Qed.

Lemma map_consistent_swapped (l : list Item) (m : gmap Z nat) i j a b :
  i <> j -> l !! i = Some a -> l !! j = Some b ->
  map_consistent l m ->
  map_consistent (swapped i j a b l) (<[number a:=j]> (<[number b:=i]> m)).
Proof.
  intros Hij Hi Hj Hm.
  assert (number a <> number b) as Hab
    by (intros E; apply Hij; eapply map_consistent_inj; eauto).
  split.
  - intros n x. rewrite (swapped_lookup i j a b l n Hij Hi Hj).
    repeat case_decide; intros Hx; simplify_eq.
    + apply lookup_insert_eq.
    + rewrite lookup_insert_ne by done. apply lookup_insert_eq.
    + assert (number x <> number a)
        by (intros E; eapply (map_consistent_inj l m n i) in E; eauto).
      assert (number x <> number b)
        by (intros E; eapply (map_consistent_inj l m n j) in E; eauto).
      rewrite !lookup_insert_ne by done. by apply Hm.
  - intros k n. rewrite lookup_insert.
    case_decide as Hka.
    + intros [= <-]. exists a. subst k. split; [|done].
      rewrite (swapped_lookup i j a b l j Hij Hi Hj). by rewrite decide_True.
    + rewrite lookup_insert. case_decide as Hkb.
      * intros [= <-]. exists b. subst k. split; [|done].
        rewrite (swapped_lookup i j a b l i Hij Hi Hj).
        rewrite decide_False by done. by rewrite decide_True.
      * intros Hk. destruct Hm as [Hfw Hbw].
        destruct (Hbw k n Hk) as (x & Hx & Hxk). exists x. split; [|done].
        rewrite (swapped_lookup i j a b l n Hij Hi Hj).
        rewrite decide_False by (intros ->; congruence).
        rewrite decide_False by (intros ->; congruence). done.
Qed.

(** ** The monad on the primitives *)

Lemma bind_ok {A B} (m : M A) (k : A -> M B) h a h' :
  m h = (Ok a, h') -> bind m k h = k a h'.
Proof. intros E. unfold bind. by rewrite E. Qed.

Lemma bind_raise {A B} (m : M A) (k : A -> M B) h e h' :
  m h = (Raise e, h') -> bind m k h = (Raise e, h').
Proof. intros E. unfold bind. by rewrite E. Qed.

Lemma heap_get_ok i x h : heap h !! i = Some x -> heap_get i h = (Ok x, h).
Proof. intros E. unfold heap_get. by rewrite E. Qed.

Lemma heap_set_ok i x h :
  i < length (heap h) ->
  heap_set i x h = (Ok tt, mkDHeap (d h) (<[i:=x]> (heap h)) (position_map h)).
Proof. intros E. unfold heap_set. by rewrite decide_True. Qed.

Lemma _parent_ok index h :
  1 <= d h -> _parent index h = (Ok ((index - 1) / d h), h).
Proof. intros E. unfold _parent. rewrite decide_False by lia. done. Qed.

Lemma _swap_ok i j a b h :
  i <> j -> heap h !! i = Some a -> heap h !! j = Some b ->
  _swap i j h =
    (Ok tt, mkDHeap (d h) (swapped i j a b (heap h))
              (<[number a:=j]> (<[number b:=i]> (position_map h)))).
Proof.
  intros Hij Hi Hj. unfold _swap.
  apply lookup_lt_Some in Hi as Hli. apply lookup_lt_Some in Hj as Hlj.
  rewrite (bind_ok _ _ _ _ _ (heap_get_ok j b h Hj)).
  rewrite (bind_ok _ _ _ _ _ (heap_get_ok i a h Hi)).
  rewrite (bind_ok _ _ _ _ _ (heap_set_ok i b h Hli)).
  erewrite bind_ok; [|apply heap_set_ok; simpl; by rewrite length_insert].
  erewrite bind_ok; cycle 1.
  { apply heap_get_ok. simpl. rewrite list_lookup_insert_ne by done.
    apply list_lookup_insert_eq. done. }
  unfold map_set at 1. unfold bind at 1. simpl.
  erewrite bind_ok; cycle 1.
  { apply heap_get_ok. simpl. apply list_lookup_insert_eq.
    by rewrite length_insert. }
  reflexivity.
Qed.

Lemma _swap_shuffled i j a b h h' :
  i <> j -> heap h !! i = Some a -> heap h !! j = Some b ->
  _swap i j h = (Ok tt, h') ->
  shuffled h h' /\ heap h' = swapped i j a b (heap h).
Proof.
  intros Hij Hi Hj. rewrite (_swap_ok i j a b h Hij Hi Hj). intros [= <-].
  split; [|done]. split; [done|]. split; simpl.
  - by apply swapped_perm.
  - by apply map_consistent_swapped.
Qed.

Lemma shuffled_refl h : shuffled h h.
Proof. by split. Qed.

Lemma shuffled_trans h1 h2 h3 :
  shuffled h1 h2 -> shuffled h2 h3 -> shuffled h1 h3.
Proof.
  intros (Hd1 & Hp1 & Hm1) (Hd2 & Hp2 & Hm2). split; [congruence|].
  split; [by rewrite Hp2|]. auto.
Qed.

(** ** Heap order under one step of each loop *)

Lemma up_hole_root dd (l : list Item) : up_hole dd 0 l -> heap_ordered dd l.
Proof. intros [H1 _] i x p Hi. apply H1; [done|lia]. Qed.

Lemma up_hole_stop dd k (l : list Item) x y :
  l !! k = Some x -> l !! ((k - 1) / dd) = Some y ->
  ¬ (cost x < cost y)%Z -> up_hole dd k l -> heap_ordered dd l.
Proof.
  intros Hk Hp Hge [H1 _] i xi pi Hi Hxi Hpi.
  destruct (decide (i = k)) as [->|Hne]; [|by eapply H1].
  simplify_eq. lia.
Qed.

Lemma up_hole_swap dd k (l : list Item) x y :
  0 < k -> l !! k = Some x -> l !! ((k - 1) / dd) = Some y ->
  (cost x < cost y)%Z -> up_hole dd k l ->
  up_hole dd ((k - 1) / dd) (swapped k ((k - 1) / dd) x y l).
Proof.
  intros Hk Hx Hy Hlt [H1 H2].
  pose proof (parent_lt dd k Hk) as Hpk.
  remember ((k - 1) / dd) as p eqn:Ep.
  assert (k <> p) as Hne by lia.
  split.
  - intros i xi pi Hi Hip.
    rewrite !(swapped_lookup _ _ _ _ _ _ Hne Hx Hy).
    rewrite (decide_False (P:=i = p)) by done.
    destruct (decide (i = k)) as [->|Hik].
    + (* k itself: its parent now holds x *)
      rewrite <- Ep, decide_True by done. intros [= <-] [= <-]. lia.
    + destruct (decide ((i - 1) / dd = p)) as [E|E].
      * (* a sibling of k *)
        intros Hxi [= <-].
        specialize (H1 i xi y Hi Hik Hxi). rewrite E in H1.
        specialize (H1 Hy). lia.
      * destruct (decide ((i - 1) / dd = k)) as [E2|E2].
        -- (* a child of k *)
           intros Hxi [= <-]. eapply (H2 i xi); eauto.
        -- intros Hxi Hpi. eapply H1; eauto.
  - intros c xc g Hp Hc Hcp.
    pose proof (parent_lt dd _ Hp) as Hpp.
    rewrite !(swapped_lookup _ _ _ _ _ _ Hne Hx Hy).
    rewrite (decide_False (P:=(p - 1) / dd = p)) by lia.
    rewrite (decide_False (P:=(p - 1) / dd = k)) by lia.
    rewrite (decide_False (P:=c = p)) by (pose proof (parent_lt dd c Hc); lia).
    intros Hxc Hg.
    assert (cost g <= cost y)%Z as Hgy
      by (eapply (H1 p); eauto; lia).
    destruct (decide (c = k)) as [->|Hck].
    + by simplify_eq.
    + assert (cost y <= cost xc)%Z; [|lia].
      eapply (H1 c); eauto. by rewrite Hcp.
Qed.

Lemma down_hole_stop dd k (l : list Item) x :
  l !! k = Some x ->
  (forall c xc, 0 < c -> (c - 1) / dd = k -> l !! c = Some xc ->
     (cost x <= cost xc)%Z) ->
  down_hole dd k l -> heap_ordered dd l.
Proof.
  intros Hk Hmin [H1 _] i xi pi Hi Hxi Hpi.
  destruct (decide ((i - 1) / dd = k)) as [E|Hne]; [|by eapply H1].
  rewrite E in Hpi. simplify_eq. by eapply Hmin.
Qed.

Lemma down_hole_swap dd k m (l : list Item) x y :
  0 < m -> (m - 1) / dd = k ->
  l !! k = Some x -> l !! m = Some y ->
  (cost x > cost y)%Z ->
  (forall c xc, 0 < c -> (c - 1) / dd = k -> l !! c = Some xc ->
     (cost y <= cost xc)%Z) ->
  down_hole dd k l ->
  down_hole dd m (swapped k m x y l).
Proof.
  intros Hm Hmk Hx Hy Hgt Hmin [H1 H2].
  pose proof (parent_lt dd m Hm) as Hkm. rewrite Hmk in Hkm.
  assert (k <> m) as Hne by lia.
  split.
  - intros i xi pi Hi Hip.
    rewrite !(swapped_lookup _ _ _ _ _ _ Hne Hx Hy).
    rewrite (decide_False (P:=(i - 1) / dd = m)) by done.
    destruct (decide (i = m)) as [->|Him].
    + (* m itself: its parent k now holds y *)
      rewrite Hmk, decide_True by done. intros [= <-] [= <-]. lia.
    + destruct (decide (i = k)) as [->|Hik].
      * (* k: its parent against the old m *)
        pose proof (parent_lt dd k Hi).
        rewrite decide_False by lia.
        intros [= <-] Hpi. eapply (H2 m y pi); eauto.
      * destruct (decide ((i - 1) / dd = k)) as [E|E].
        -- (* a sibling of m *)
           intros Hxi [= <-]. eapply Hmin; eauto.
        -- intros Hxi Hpi. eapply H1; eauto.
  - intros c xc g _ Hc Hcp.
    pose proof (parent_lt dd c Hc) as Hcc. rewrite Hcp in Hcc.
    rewrite !(swapped_lookup _ _ _ _ _ _ Hne Hx Hy).
    rewrite Hmk.
    rewrite (decide_False (P:=c = m)) by lia.
    rewrite (decide_False (P:=c = k)) by lia.
    rewrite (decide_False (P:=k = m)) by lia.
    rewrite decide_True by done.
    intros Hxc [= <-].
    eapply (H1 c); eauto; [lia|]. by rewrite Hcp.
Qed.

(** An ordered heap is ordered with a hole anywhere. *)
Lemma heap_ordered_trans dd (l : list Item) k c x g :
  heap_ordered dd l -> 0 < k -> 0 < c -> (c - 1) / dd = k ->
  l !! c = Some x -> l !! ((k - 1) / dd) = Some g -> (cost g <= cost x)%Z.
Proof.
  intros Ho Hk Hc Hcp Hx Hg.
  assert (k < length l) as Hkl.
  { apply lookup_lt_Some in Hx. pose proof (parent_lt dd c Hc). lia. }
  destruct (lookup_lt_is_Some_2 l k Hkl) as [y Hy].
  assert (cost g <= cost y)%Z by (eapply (Ho k); eauto).
  assert (cost y <= cost x)%Z; [|lia].
  eapply (Ho c); eauto. by rewrite Hcp.
Qed.

(** ** [_bubble_up] *)

Lemma bubble_up_loop_spec fuel : forall index h,
  index < fuel -> index < length (heap h) -> 1 <= d h ->
  up_hole (d h) index (heap h) ->
  exists h', bubble_up_loop fuel index h = (Ok tt, h') /\
             shuffled h h' /\ heap_ordered (d h) (heap h').
Proof.
  induction fuel as [|fuel IH]; intros index h Hf Hlen Hd Hole; [lia|].
  simpl. destruct (decide (0 < index)) as [Hpos|Hroot]; cycle 1.
  { exists h. split; [done|]. split; [apply shuffled_refl|].
    apply up_hole_root. by replace index with 0 in Hole by lia. }
  pose proof (parent_lt (d h) index Hpos) as Hp.
  destruct (lookup_lt_is_Some_2 (heap h) index Hlen) as [x Hx].
  destruct (lookup_lt_is_Some_2 (heap h) ((index - 1) / d h) ltac:(lia))
    as [y Hy].
  rewrite (bind_ok _ _ _ _ _ (_parent_ok index h Hd)).
  rewrite (bind_ok _ _ _ _ _ (heap_get_ok _ _ _ Hx)).
  rewrite (bind_ok _ _ _ _ _ (heap_get_ok _ _ _ Hy)).
  destruct (decide (cost x < cost y)%Z) as [Hlt|Hge]; cycle 1.
  { exists h. split; [done|]. split; [apply shuffled_refl|].
    by apply (up_hole_stop (d h) index (heap h) x y). }
  assert (index <> (index - 1) / d h) as Hne by lia.
  pose proof (_swap_ok _ _ _ _ h Hne Hx Hy) as Hswap.
  rewrite (bind_ok _ _ _ _ _ Hswap).
  destruct (_swap_shuffled _ _ _ _ _ _ Hne Hx Hy Hswap) as [Hsh Hheap].
  match type of Hswap with _ = (_, ?s) => set (h1 := s) in * end.
  destruct (IH ((index - 1) / d h) h1) as (h' & Hrun & Hsh' & Hord).
  - lia.
  - rewrite Hheap, swapped_length. lia.
  - done.
  - rewrite Hheap. by apply up_hole_swap.
  - exists h'. split; [done|]. split; [by eapply shuffled_trans|done].
Qed.

Lemma _bubble_up_spec index h :
  index < length (heap h) -> 1 <= d h ->
  up_hole (d h) index (heap h) ->
  exists h', _bubble_up index h = (Ok tt, h') /\
             shuffled h h' /\ heap_ordered (d h) (heap h').
Proof. intros. apply bubble_up_loop_spec; auto. Qed.

(** ** [_bubble_down] *)

Lemma children_spec h index c :
  1 <= d h ->
  c ∈ seq (d h * index + 1)
        (Nat.min (d h * index + 1 + d h) (length (heap h))
         - (d h * index + 1))
  <-> 0 < c /\ (c - 1) / d h = index /\ c < length (heap h).
Proof.
  intros Hd. rewrite elem_of_seq. split.
  - intros Hc. split; [lia|]. split; [|lia].
    apply parent_of_child; lia.
  - intros (Hc & Hp & Hl).
    pose proof (child_of_parent (d h) index c Hd Hc Hp). lia.
Qed.

Lemma min_scan_spec rest : forall best yb h,
  heap h !! best = Some yb ->
  (forall c, c ∈ rest -> c < length (heap h)) ->
  exists m y, min_scan best (cost yb) rest h = (Ok m, h) /\
              (m = best \/ m ∈ rest) /\ heap h !! m = Some y /\
              (cost y <= cost yb)%Z /\
              (forall c xc, c ∈ rest -> heap h !! c = Some xc ->
                 (cost y <= cost xc)%Z).
Proof.
  induction rest as [|c rest IH]; intros best yb h Hb Hin; simpl.
  - exists best, yb. split; [done|]. split; [by left|]. split; [done|].
    split; [lia|]. intros c xc Hc. by apply elem_of_nil in Hc.
  - destruct (lookup_lt_is_Some_2 (heap h) c) as [x Hx].
    { apply Hin. by left. }
    rewrite (bind_ok _ _ _ _ _ (heap_get_ok _ _ _ Hx)).
    destruct (decide (cost x < cost yb)%Z) as [Hlt|Hge].
    + destruct (IH c x h Hx) as (m & y & Hrun & Hm & Hy & Hle & Hall).
      { intros c' Hc'. apply Hin. by right. }
      exists m, y. split; [done|]. split.
      { destruct Hm as [->|Hm]; right; [by left|by right]. }
      split; [done|]. split; [lia|].
      intros c' xc' Hc' Hxc'. apply elem_of_cons in Hc' as [->|Hc'].
      * by simplify_eq.
      * by eapply Hall.
    + destruct (IH best yb h Hb) as (m & y & Hrun & Hm & Hy & Hle & Hall).
      { intros c' Hc'. apply Hin. by right. }
      exists m, y. split; [done|]. split.
      { destruct Hm as [->|Hm]; [by left|right; by right]. }
      split; [done|]. split; [lia|].
      intros c' xc' Hc' Hxc'. apply elem_of_cons in Hc' as [->|Hc'].
      * simplify_eq. lia.
      * by eapply Hall.
Qed.

Lemma min_by_cost_spec c0 rest h :
  (forall c, c ∈ c0 :: rest -> c < length (heap h)) ->
  exists m y, min_by_cost (c0 :: rest) h = (Ok m, h) /\
              m ∈ c0 :: rest /\ heap h !! m = Some y /\
              (forall c xc, c ∈ c0 :: rest -> heap h !! c = Some xc ->
                 (cost y <= cost xc)%Z).
Proof.
  intros Hin. simpl.
  destruct (lookup_lt_is_Some_2 (heap h) c0) as [x Hx].
  { apply Hin. by left. }
  rewrite (bind_ok _ _ _ _ _ (heap_get_ok _ _ _ Hx)).
  destruct (min_scan_spec rest c0 x h Hx) as (m & y & Hrun & Hm & Hy & Hle & Hall).
  { intros c Hc. apply Hin. by right. }
  exists m, y. split; [done|]. split.
  { destruct Hm as [->|Hm]; [by left|by right]. }
  split; [done|].
  intros c xc Hc Hxc. apply elem_of_cons in Hc as [->|Hc].
  - by simplify_eq.
  - by eapply Hall.
Qed.

Lemma bubble_down_loop_spec fuel : forall index h,
  length (heap h) - index < fuel -> index < length (heap h) -> 1 <= d h ->
  down_hole (d h) index (heap h) ->
  exists h', bubble_down_loop fuel index h = (Ok tt, h') /\
             shuffled h h' /\ heap_ordered (d h) (heap h').
Proof.
  induction fuel as [|fuel IH]; intros index h Hf Hlen Hd Hole; [lia|].
  simpl. unfold bind at 1, _children at 1.
  pose proof (children_spec h index) as Hch.
  destruct (lookup_lt_is_Some_2 (heap h) index Hlen) as [x Hx].
  destruct (seq _ _) as [|c0 rest] eqn:Ecs.
  { exists h. split; [done|]. split; [apply shuffled_refl|].
    apply (down_hole_stop (d h) index (heap h) x); [done| |done].
    intros c xc Hc Hcp Hxc. apply lookup_lt_Some in Hxc.
    assert (c ∈ @nil nat) as Hnil by (apply Hch; auto).
    by apply elem_of_nil in Hnil. }
  destruct (min_by_cost_spec c0 rest h) as (m & y & Hrun & Hm & Hy & Hall).
  { intros c Hc. apply Hch in Hc; [lia|done]. }
  apply Hch in Hm as (Hm0 & Hmp & Hml); [|done].
  rewrite (bind_ok _ _ _ _ _ Hrun).
  rewrite (bind_ok _ _ _ _ _ (heap_get_ok _ _ _ Hx)).
  rewrite (bind_ok _ _ _ _ _ (heap_get_ok _ _ _ Hy)).
  assert (forall c xc, 0 < c -> (c - 1) / d h = index ->
            heap h !! c = Some xc -> (cost y <= cost xc)%Z) as Hmin.
  { intros c xc Hc Hcp Hxc. eapply Hall; eauto.
    apply Hch; auto. apply lookup_lt_Some in Hxc. auto. }
  destruct (decide (cost x > cost y)%Z) as [Hgt|Hle]; cycle 1.
  { exists h. split; [done|]. split; [apply shuffled_refl|].
    apply (down_hole_stop (d h) index (heap h) x); [done| |done].
    intros c xc Hc Hcp Hxc. specialize (Hmin c xc Hc Hcp Hxc). lia. }
  pose proof (parent_lt (d h) m Hm0) as Hpm. rewrite Hmp in Hpm.
  assert (index <> m) as Hne by lia.
  pose proof (_swap_ok _ _ _ _ h Hne Hx Hy) as Hswap.
  rewrite (bind_ok _ _ _ _ _ Hswap).
  destruct (_swap_shuffled _ _ _ _ _ _ Hne Hx Hy Hswap) as [Hsh Hheap].
  match type of Hswap with _ = (_, ?s) => set (h1 := s) in * end.
  destruct (IH m h1) as (h' & Hrun' & Hsh' & Hord).
  - rewrite Hheap, swapped_length. lia.
  - rewrite Hheap, swapped_length. lia.
  - done.
  - rewrite Hheap. by apply down_hole_swap.
  - exists h'. split; [done|]. split; [by eapply shuffled_trans|done].
Qed.

Lemma _bubble_down_spec index h :
  index < length (heap h) -> 1 <= d h ->
  down_hole (d h) index (heap h) ->
  exists h', _bubble_down index h = (Ok tt, h') /\
             shuffled h h' /\ heap_ordered (d h) (heap h').
Proof.
  intros. unfold _bubble_down, bind, heap_len.
  apply bubble_down_loop_spec; auto. lia.
Qed.

(** ** [insert] *)

Lemma map_mem_true k i h :
  position_map h !! k = Some i -> map_mem k h = (Ok true, h).
Proof.
  intros E. unfold map_mem. rewrite bool_decide_eq_true_2; [done|].
  rewrite E. by eexists.
Qed.

Lemma map_mem_false k h :
  position_map h !! k = None -> map_mem k h = (Ok false, h).
Proof.
  intros E. unfold map_mem. rewrite bool_decide_eq_false_2; [done|].
  rewrite E. by intros [? ?].
Qed.

Lemma map_consistent_append (l : list Item) (m : gmap Z nat) item :
  map_consistent l m -> m !! number item = None ->
  map_consistent (l ++ [item]) (<[number item:=length l]> m).
Proof.
  intros [Hfw Hbw] Hnew. split.
  - intros i x Hx. apply lookup_app_Some in Hx as [Hx|[Hi Hx]].
    + rewrite lookup_insert_ne; [by apply Hfw|].
      intros E. apply Hfw in Hx. congruence.
    + apply list_lookup_singleton_Some in Hx as [Hi0 <-].
      replace i with (length l) by lia. apply lookup_insert_eq.
  - intros k i. rewrite lookup_insert. case_decide as Hk.
    + intros [= <-]. exists item. split; [|done].
      rewrite lookup_app_r by lia. by rewrite Nat.sub_diag.
    + intros Hi. destruct (Hbw k i Hi) as (x & Hx & Hxk).
      exists x. split; [|done]. by apply lookup_app_l_Some.
Qed.

Lemma up_hole_append dd (l : list Item) item :
  heap_ordered dd l -> up_hole dd (length l) (l ++ [item]).
Proof.
  intros Ho. split.
  - intros i x p Hi Hne Hx Hp.
    apply lookup_lt_Some in Hx as Hlt. rewrite length_app in Hlt. simpl in Hlt.
    pose proof (parent_lt dd i Hi).
    rewrite lookup_app_l in Hx by lia. rewrite lookup_app_l in Hp by lia.
    by eapply Ho.
  - intros c x g _ Hc Hcp Hx.
    apply lookup_lt_Some in Hx as Hlt. rewrite length_app in Hlt. simpl in Hlt.
    pose proof (parent_lt dd c Hc). lia.
Qed.

Lemma insert_spec item h :
  Inv h -> position_map h !! number item = None ->
  exists h', insert item h = (Ok tt, h') /\ Inv h' /\
             d h' = d h /\ heap h' ≡ₚ item :: heap h.
Proof.
  intros [Hd Ho Hm] Hnew. unfold insert.
  rewrite (bind_ok _ _ _ _ _ (map_mem_false _ _ Hnew)).
  unfold heap_append at 1, bind at 1. unfold heap_len at 1, bind at 1.
  unfold map_set at 1, bind at 1. unfold heap_len at 1, bind at 1. simpl.
  rewrite length_app. simpl. replace (length (heap h) + 1 - 1) with (length (heap h)) by lia.
  match goal with |- context [_bubble_up _ ?s] => set (h1 := s) end.
  destruct (_bubble_up_spec (length (heap h)) h1) as (h' & Hrun & Hsh & Hord).
  - simpl. rewrite length_app. simpl. lia.
  - simpl. lia.
  - simpl. by apply up_hole_append.
  - destruct Hsh as (Hd' & Hp' & Hm'). simpl in *.
    exists h'. split; [done|]. split; [|split; [done|]].
    + split; [lia|by rewrite Hd'|]. apply Hm'. by apply map_consistent_append.
    + rewrite Hp'. by rewrite Permutation_app_comm.
Qed.

Lemma insert_duplicate item i h :
  position_map h !! number item = Some i ->
  insert item h =
    (Raise (ValueError ("Item with identity " +:+ pretty (number item)
                          +:+ " already exists")), h).
Proof.
  intros E. unfold insert.
  by rewrite (bind_ok _ _ _ _ _ (map_mem_true _ _ _ E)).
Qed.

(** ** [pop] and [front] *)

Lemma heap_pop_last_ok l z h :
  heap h = l ++ [z] ->
  heap_pop_last h = (Ok z, mkDHeap (d h) l (position_map h)).
Proof.
  intros E. unfold heap_pop_last. rewrite E, last_snoc.
  by rewrite removelast_last.
Qed.

Lemma map_del_ok k i h :
  position_map h !! k = Some i ->
  map_del k h = (Ok tt, mkDHeap (d h) (heap h) (delete k (position_map h))).
Proof. intros E. unfold map_del. by rewrite E. Qed.

Lemma pop_empty h : heap h = [] -> pop h = (Ok None, h).
Proof. intros E. unfold pop, bind, heap_len. by rewrite E. Qed.

Lemma front_empty h : heap h = [] -> front h = (Ok None, h).
Proof. intros E. unfold front, bind, heap_len. by rewrite E. Qed.

Lemma front_nonempty h x rest :
  heap h = x :: rest -> front h = (Ok (Some x), h).
Proof.
  intros E. unfold front, bind, heap_len, heap_get.
  rewrite E. simpl. by rewrite E.
Qed.

Lemma map_consistent_pop_single (m : gmap Z nat) x0 :
  map_consistent [x0] m -> map_consistent [] (delete (number x0) m).
Proof.
  intros [Hfw Hbw]. split; [done|].
  intros k i Hk. apply lookup_delete_Some in Hk as [Hne Hk].
  destruct (Hbw k i Hk) as (x & Hx & Hxk).
  apply list_lookup_singleton_Some in Hx as [_ <-]. done.
Qed.

Lemma map_consistent_pop_move (l : list Item) (m : gmap Z nat) x0 z :
  map_consistent (x0 :: l ++ [z]) m ->
  map_consistent (z :: l) (<[number z:=0]> (delete (number x0) m)).
Proof.
  intros Hm. pose proof Hm as [Hfw Hbw].
  assert (forall i x, 0 < i -> (z :: l) !! i = Some x ->
            (x0 :: l ++ [z]) !! i = Some x /\ i <> S (length l)) as Hmid.
  { intros [|i] x Hi Hx; [lia|]. simpl in *.
    apply lookup_lt_Some in Hx as Hlt. split; [|lia].
    by apply lookup_app_l_Some. }
  assert ((x0 :: l ++ [z]) !! S (length l) = Some z) as Hz.
  { simpl. rewrite lookup_app_r by lia. by rewrite Nat.sub_diag. }
  split.
  - intros [|i] x Hx.
    + simpl in Hx. simplify_eq. apply lookup_insert_eq.
    + destruct (Hmid (S i) x ltac:(lia) Hx) as [Hx' Hlast].
      assert (number x <> number z) as Hxz.
      { intros E. apply Hlast.
        eapply (map_consistent_inj _ m (S i) (S (length l))); eauto. }
      assert (number x <> number x0) as Hx0.
      { intros E. eapply (map_consistent_inj _ m (S i) 0) in E; eauto. lia. }
      rewrite lookup_insert_ne by done. rewrite lookup_delete_ne by done.
      by apply Hfw.
  - intros k i. rewrite lookup_insert. case_decide as Hk.
    + intros [= <-]. by exists z.
    + intros Hi. apply lookup_delete_Some in Hi as [Hk0 Hi].
      destruct (Hbw k i Hi) as (x & Hx & Hxk). exists x. split; [|done].
      destruct i as [|i]; [simpl in Hx; by simplify_eq|].
      simpl in *. apply lookup_app_Some in Hx as [Hx|[Hge Hx]]; [done|].
      apply list_lookup_singleton_Some in Hx as [_ <-]. done.
Qed.

Lemma down_hole_pop_move dd (l : list Item) x0 z :
  heap_ordered dd (x0 :: l ++ [z]) -> down_hole dd 0 (z :: l).
Proof.
  intros Ho. split; [|intros; lia].
  intros i x p Hi Hpi Hx Hp.
  assert (forall j y, 0 < j -> (z :: l) !! j = Some y ->
            (x0 :: l ++ [z]) !! j = Some y) as Hmid.
  { intros [|j] y Hj Hy; [lia|]. simpl in *. by apply lookup_app_l_Some. }
  eapply (Ho i); eauto. apply Hmid; [lia|done].
Qed.

Lemma pop_spec h x0 rest :
  Inv h -> heap h = x0 :: rest ->
  exists h', pop h = (Ok (Some x0), h') /\ Inv h' /\
             d h' = d h /\ heap h ≡ₚ x0 :: heap h'.
Proof.
  intros [Hd Ho Hm] Eh. unfold pop.
  unfold heap_len at 1, bind at 1.
  rewrite decide_False by (rewrite Eh; simpl; lia).
  erewrite bind_ok; [|apply heap_get_ok; by rewrite Eh].
  assert (position_map h !! number x0 = Some 0) as Hx0
    by (apply Hm; by rewrite Eh).
  destruct rest as [|z rest _] using rev_ind.
  - erewrite bind_ok; [|by apply (heap_pop_last_ok [] x0)].
    erewrite bind_ok; [|by apply (map_del_ok _ 0)].
    unfold heap_len at 1, bind at 1. simpl.
    eexists. split; [done|]. simpl. rewrite Eh in *.
    split; [|done]. split; simpl; [done|done|].
    by apply map_consistent_pop_single.
  - erewrite bind_ok; [|by apply (heap_pop_last_ok (x0 :: rest) z)].
    erewrite bind_ok; [|by apply (map_del_ok _ 0)].
    unfold heap_len at 1, bind at 1. simpl.
    unfold heap_set at 1, bind at 1. simpl.
    unfold map_set at 1, bind at 1. simpl.
    match goal with |- context [bind _ _ ?s] => set (h1 := s) end.
    rewrite Eh in *.
    destruct (_bubble_down_spec 0 h1) as (h' & Hrun & Hsh & Hord).
    + simpl. lia.
    + simpl. lia.
    + simpl. by eapply down_hole_pop_move.
    + rewrite (bind_ok _ _ _ _ _ Hrun).
      destruct Hsh as (Hd' & Hp' & Hm'). simpl in *.
      exists h'. split; [done|]. split; [|split; [done|]].
      * split; [lia|by rewrite Hd'|]. apply Hm'.
        by apply map_consistent_pop_move.
      * rewrite Hp'. apply Permutation_skip.
        by rewrite Permutation_app_comm.
Qed.

(** ** [increase_priority] and [decrease_priority] *)

Lemma map_get_ok k i h : position_map h !! k = Some i -> map_get k h = (Ok i, h).
Proof. intros E. unfold map_get. by rewrite E. Qed.

Lemma set_cost_ok i x c h :
  heap h !! i = Some x ->
  set_cost i c h =
    (Ok tt, mkDHeap (d h) (<[i:=mkItem (number x) c]> (heap h)) (position_map h)).
Proof.
  intros E. unfold set_cost.
  rewrite (bind_ok _ _ _ _ _ (heap_get_ok _ _ _ E)).
  apply heap_set_ok. by eapply lookup_lt_Some.
Qed.

Lemma map_consistent_set_cost (l : list Item) (m : gmap Z nat) i x c :
  l !! i = Some x -> map_consistent l m ->
  map_consistent (<[i:=mkItem (number x) c]> l) m.
Proof.
  intros Hx [Hfw Hbw]. apply lookup_lt_Some in Hx as Hlt. split.
  - intros j y. destruct (decide (j = i)) as [->|Hne].
    + rewrite list_lookup_insert_eq by done. intros [= <-]. simpl.
      by apply Hfw.
    + rewrite list_lookup_insert_ne by done. apply Hfw.
  - intros k j Hk. destruct (Hbw k j Hk) as (y & Hy & Hyk).
    destruct (decide (j = i)) as [->|Hne].
    + rewrite list_lookup_insert_eq by done. eexists. split; [done|].
      simpl. congruence.
    + rewrite list_lookup_insert_ne by done. eauto.
Qed.

Lemma up_hole_lower dd (l : list Item) i x c :
  heap_ordered dd l -> l !! i = Some x -> (c < cost x)%Z ->
  up_hole dd i (<[i:=mkItem (number x) c]> l).
Proof.
  intros Ho Hx Hc. apply lookup_lt_Some in Hx as Hlt. split.
  - intros j y p Hj Hne. rewrite list_lookup_insert_ne by done. intros Hy.
    destruct (decide ((j - 1) / dd = i)) as [E|E].
    + rewrite E, list_lookup_insert_eq by done. intros [= <-]. simpl.
      assert (cost x <= cost y)%Z; [|lia].
      eapply (Ho j); eauto. by rewrite E.
    + rewrite list_lookup_insert_ne by done. by eapply Ho.
  - intros j y g Hi Hj Hp.
    pose proof (parent_lt dd j Hj). pose proof (parent_lt dd i Hi).
    rewrite !list_lookup_insert_ne by lia.
    by eapply heap_ordered_trans.
Qed.

Lemma down_hole_raise dd (l : list Item) i x c :
  heap_ordered dd l -> l !! i = Some x -> (c > cost x)%Z ->
  down_hole dd i (<[i:=mkItem (number x) c]> l).
Proof.
  intros Ho Hx Hc. apply lookup_lt_Some in Hx as Hlt. split.
  - intros j y p Hj Hne. rewrite (list_lookup_insert_ne _ i ((j - 1) / dd)) by done.
    destruct (decide (j = i)) as [->|E].
    + rewrite list_lookup_insert_eq by done. intros [= <-] Hp. simpl.
      assert (cost p <= cost x)%Z; [|lia]. by eapply (Ho i).
    + rewrite list_lookup_insert_ne by done. by eapply Ho.
  - intros j y g Hi Hj Hp.
    pose proof (parent_lt dd j Hj). pose proof (parent_lt dd i Hi).
    rewrite !list_lookup_insert_ne by lia.
    by eapply heap_ordered_trans.
Qed.

Lemma increase_priority_spec item i x h :
  Inv h -> position_map h !! number item = Some i -> heap h !! i = Some x ->
  (cost item < cost x)%Z ->
  exists h', increase_priority item h = (Ok tt, h') /\ Inv h' /\
             d h' = d h /\
             heap h' ≡ₚ <[i:=mkItem (number x) (cost item)]> (heap h).
Proof.
  intros [Hd Ho Hm] Hi Hx Hlt. unfold increase_priority.
  rewrite (bind_ok _ _ _ _ _ (map_mem_true _ _ _ Hi)). simpl.
  rewrite (bind_ok _ _ _ _ _ (map_get_ok _ _ _ Hi)).
  rewrite (bind_ok _ _ _ _ _ (heap_get_ok _ _ _ Hx)).
  rewrite decide_True by done.
  rewrite (bind_ok _ _ _ _ _ (set_cost_ok _ _ _ _ Hx)).
  match goal with |- context [_bubble_up _ ?s] => set (h1 := s) end.
  apply lookup_lt_Some in Hx as Hlen.
  destruct (_bubble_up_spec i h1) as (h' & Hrun & Hsh & Hord).
  - simpl. by rewrite length_insert.
  - simpl. lia.
  - simpl. by apply up_hole_lower.
  - destruct Hsh as (Hd' & Hp' & Hm'). simpl in *.
    exists h'. split; [done|]. split; [|by split].
    split; [lia|by rewrite Hd'|]. apply Hm'.
    by apply map_consistent_set_cost.
Qed.

Lemma decrease_priority_spec item i x h :
  Inv h -> position_map h !! number item = Some i -> heap h !! i = Some x ->
  (cost item > cost x)%Z ->
  exists h', decrease_priority item h = (Ok tt, h') /\ Inv h' /\
             d h' = d h /\
             heap h' ≡ₚ <[i:=mkItem (number x) (cost item)]> (heap h).
Proof.
  intros [Hd Ho Hm] Hi Hx Hgt. unfold decrease_priority.
  rewrite (bind_ok _ _ _ _ _ (map_mem_true _ _ _ Hi)). simpl.
  rewrite (bind_ok _ _ _ _ _ (map_get_ok _ _ _ Hi)).
  rewrite (bind_ok _ _ _ _ _ (heap_get_ok _ _ _ Hx)).
  rewrite decide_True by done.
  rewrite (bind_ok _ _ _ _ _ (set_cost_ok _ _ _ _ Hx)).
  match goal with |- context [_bubble_down _ ?s] => set (h1 := s) end.
  apply lookup_lt_Some in Hx as Hlen.
  destruct (_bubble_down_spec i h1) as (h' & Hrun & Hsh & Hord).
  - simpl. by rewrite length_insert.
  - simpl. lia.
  - simpl. by apply down_hole_raise.
  - destruct Hsh as (Hd' & Hp' & Hm'). simpl in *.
    exists h'. split; [done|]. split; [|by split].
    split; [lia|by rewrite Hd'|]. apply Hm'.
    by apply map_consistent_set_cost.
Qed.

Lemma increase_priority_absent item h :
  position_map h !! number item = None ->
  increase_priority item h =
    (Raise (ValueError ("Item with identity " +:+ pretty (number item)
                          +:+ " not found")), h).
Proof.
  intros E. unfold increase_priority.
  by rewrite (bind_ok _ _ _ _ _ (map_mem_false _ _ E)).
Qed.

Lemma decrease_priority_absent item h :
  position_map h !! number item = None ->
  decrease_priority item h =
    (Raise (ValueError ("Item with identity " +:+ pretty (number item)
                          +:+ " not found")), h).
Proof.
  intros E. unfold decrease_priority.
  by rewrite (bind_ok _ _ _ _ _ (map_mem_false _ _ E)).
Qed.

Lemma increase_priority_not_lower item i x h :
  position_map h !! number item = Some i -> heap h !! i = Some x ->
  ¬ (cost item < cost x)%Z ->
  increase_priority item h =
    (Raise (ValueError "New cost must be lower than current cost"), h).
Proof.
  intros Hi Hx Hge. unfold increase_priority.
  rewrite (bind_ok _ _ _ _ _ (map_mem_true _ _ _ Hi)). simpl.
  rewrite (bind_ok _ _ _ _ _ (map_get_ok _ _ _ Hi)).
  rewrite (bind_ok _ _ _ _ _ (heap_get_ok _ _ _ Hx)).
  by rewrite decide_False.
Qed.

Lemma decrease_priority_not_higher item i x h :
  position_map h !! number item = Some i -> heap h !! i = Some x ->
  ¬ (cost item > cost x)%Z ->
  decrease_priority item h =
    (Raise (ValueError "New cost must be higher than current cost"), h).
Proof.
  intros Hi Hx Hle. unfold decrease_priority.
  rewrite (bind_ok _ _ _ _ _ (map_mem_true _ _ _ Hi)). simpl.
  rewrite (bind_ok _ _ _ _ _ (map_get_ok _ _ _ Hi)).
  rewrite (bind_ok _ _ _ _ _ (heap_get_ok _ _ _ Hx)).
  by rewrite decide_False.
Qed.

(** ** Consequences of the invariants *)

(** In an ordered heap the root is the cheapest item. *)
Lemma root_min dd (l : list Item) x :
  heap_ordered dd l -> l !! 0 = Some x ->
  forall i y, l !! i = Some y -> (cost x <= cost y)%Z.
Proof.
  intros Ho H0 i. induction i as [i IH] using lt_wf_ind. intros y Hy.
  destruct (decide (i = 0)) as [->|Hi]; [simplify_eq; lia|].
  pose proof (parent_lt dd i ltac:(lia)) as Hp.
  apply lookup_lt_Some in Hy as Hlt.
  destruct (lookup_lt_is_Some_2 l ((i - 1) / dd) ltac:(lia)) as [z Hz].
  assert (cost x <= cost z)%Z by (by eapply IH).
  assert (cost z <= cost y)%Z; [|lia].
  eapply (Ho i); eauto. lia.
Qed.

Lemma consistent_present (l : list Item) (m : gmap Z nat) x :
  map_consistent l m -> x ∈ l -> exists i, m !! number x = Some i /\ l !! i = Some x.
Proof.
  intros [Hfw _] Hx. apply list_elem_of_lookup in Hx as [i Hi].
  exists i. split; [by apply Hfw|done].
Qed.

Lemma consistent_absent (l : list Item) (m : gmap Z nat) k :
  map_consistent l m -> (forall x, x ∈ l -> number x <> k) -> m !! k = None.
Proof.
  intros [_ Hbw] Habs. destruct (m !! k) as [i|] eqn:E; [|done].
  destruct (Hbw k i E) as (x & Hx & Hxk).
  exfalso. apply (Habs x); [|done]. apply list_elem_of_lookup. eauto.
Qed.

Lemma consistent_dom (l : list Item) (m : gmap Z nat) k :
  map_consistent l m -> k ∈ dom m <-> k ∈ number <$> l.
Proof.
  intros [Hfw Hbw]. rewrite elem_of_dom, list_elem_of_fmap. split.
  - intros [i Hi]. destruct (Hbw k i Hi) as (x & Hx & Hxk).
    exists x. split; [done|]. apply list_elem_of_lookup. eauto.
  - intros (x & -> & Hx). apply list_elem_of_lookup in Hx as [i Hi].
    exists i. by apply Hfw.
Qed.

(** ** Every call, case by case *)

Lemma insert_cases item h :
  Inv h ->
  (position_map h !! number item = None /\
   exists h', insert item h = (Ok tt, h') /\ Inv h' /\
              d h' = d h /\ heap h' ≡ₚ item :: heap h) \/
  (is_Some (position_map h !! number item) /\
   insert item h =
     (Raise (ValueError ("Item with identity " +:+ pretty (number item)
                           +:+ " already exists")), h)).
Proof.
  intros HI. destruct (position_map h !! number item) as [i|] eqn:E.
  - right. split; [by eexists|]. by eapply insert_duplicate.
  - left. split; [done|]. by apply insert_spec.
Qed.

Lemma pop_cases h :
  Inv h ->
  (heap h = [] /\ pop h = (Ok None, h)) \/
  (exists x0 rest h', heap h = x0 :: rest /\ pop h = (Ok (Some x0), h') /\
     Inv h' /\ d h' = d h /\ heap h ≡ₚ x0 :: heap h').
Proof.
  intros HI. destruct (heap h) as [|x0 rest] eqn:E.
  - left. split; [done|]. by apply pop_empty.
  - right. destruct (pop_spec h x0 rest HI E) as (h' & Hrun & HI' & Hd & Hp).
    exists x0, rest, h'. rewrite <- E. auto.
Qed.

Lemma increase_priority_cases item h :
  Inv h ->
  (position_map h !! number item = None /\
   increase_priority item h =
     (Raise (ValueError ("Item with identity " +:+ pretty (number item)
                           +:+ " not found")), h)) \/
  (exists i x, position_map h !! number item = Some i /\
     heap h !! i = Some x /\ number x = number item /\
     (((cost item < cost x)%Z /\
       exists h', increase_priority item h = (Ok tt, h') /\ Inv h' /\
                  d h' = d h /\
                  heap h' ≡ₚ <[i:=mkItem (number x) (cost item)]> (heap h)) \/
      (¬ (cost item < cost x)%Z /\
       increase_priority item h =
         (Raise (ValueError "New cost must be lower than current cost"), h)))).
Proof.
  intros HI. destruct (position_map h !! number item) as [i|] eqn:E.
  - right. destruct (proj2 (inv_map h HI) _ _ E) as (x & Hx & Hxn).
    exists i, x. do 3 (split; [done|]).
    destruct (decide (cost item < cost x)%Z) as [Hlt|Hge].
    + left. split; [done|]. by apply increase_priority_spec.
    + right. split; [done|]. by eapply increase_priority_not_lower.
  - left. split; [done|]. by apply increase_priority_absent.
Qed.

Lemma decrease_priority_cases item h :
  Inv h ->
  (position_map h !! number item = None /\
   decrease_priority item h =
     (Raise (ValueError ("Item with identity " +:+ pretty (number item)
                           +:+ " not found")), h)) \/
  (exists i x, position_map h !! number item = Some i /\
     heap h !! i = Some x /\ number x = number item /\
     (((cost item > cost x)%Z /\
       exists h', decrease_priority item h = (Ok tt, h') /\ Inv h' /\
                  d h' = d h /\
                  heap h' ≡ₚ <[i:=mkItem (number x) (cost item)]> (heap h)) \/
      (¬ (cost item > cost x)%Z /\
       decrease_priority item h =
         (Raise (ValueError "New cost must be higher than current cost"), h)))).
Proof.
  intros HI. destruct (position_map h !! number item) as [i|] eqn:E.
  - right. destruct (proj2 (inv_map h HI) _ _ E) as (x & Hx & Hxn).
    exists i, x. do 3 (split; [done|]).
    destruct (decide (cost item > cost x)%Z) as [Hgt|Hle].
    + left. split; [done|]. by apply decrease_priority_spec.
    + right. split; [done|]. by eapply decrease_priority_not_higher.
  - left. split; [done|]. by apply decrease_priority_absent.
Qed.

Lemma front_cases h :
  (heap h = [] /\ front h = (Ok None, h)) \/
  (exists x rest, heap h = x :: rest /\ front h = (Ok (Some x), h)).
Proof.
  destruct (heap h) as [|x rest] eqn:E.
  - left. split; [done|]. by apply front_empty.
  - right. exists x, rest. split; [done|]. by eapply front_nonempty.
Qed.

(** A call on a well-formed heap leaves a well-formed heap, of the same
    arity, holding one item more after an [insert] that returned, one item
    less after a [pop] that returned an item, and as many otherwise. *)
Lemma exec_Inv c h r h' :
  Inv h -> exec c h = (r, h') ->
  Inv h' /\ d h' = d h /\
  length (heap h') + popped c r = length (heap h) + inserted c r.
Proof.
  intros HI. destruct c as [item| | |item|item|item| |]; simpl.
  - destruct (insert_cases item h HI)
      as [(_ & h1 & Hrun & HI1 & Hd & Hp)|(_ & Hrun)].
    + rewrite (bind_ok _ _ _ _ _ Hrun). intros [= <- <-]. simpl.
      rewrite Hp. simpl. split; [done|]. split; [done|lia].
    + rewrite (bind_raise _ _ _ _ _ Hrun). intros [= <- <-]. auto.
  - destruct (pop_cases h HI)
      as [(Hnil & Hrun)|(x0 & rest & h1 & Hh & Hrun & HI1 & Hd & Hp)].
    + rewrite (bind_ok _ _ _ _ _ Hrun). intros [= <- <-]. auto.
    + rewrite (bind_ok _ _ _ _ _ Hrun). intros [= <- <-]. simpl.
      rewrite Hp. simpl. split; [done|]. split; [done|lia].
  - destruct (front_cases h) as [(Hnil & Hrun)|(x & rest & Hh & Hrun)];
      rewrite (bind_ok _ _ _ _ _ Hrun); intros [= <- <-]; auto.
  - unfold bind, contains, map_mem. intros [= <- <-]. auto.
  - destruct (increase_priority_cases item h HI)
      as [(_ & Hrun)|(i & x & Hi & Hx & _ &
            [(_ & h1 & Hrun & HI1 & Hd & Hp)|(_ & Hrun)])].
    + rewrite (bind_raise _ _ _ _ _ Hrun). intros [= <- <-]. auto.
    + rewrite (bind_ok _ _ _ _ _ Hrun). intros [= <- <-]. simpl.
      rewrite Hp, length_insert. auto.
    + rewrite (bind_raise _ _ _ _ _ Hrun). intros [= <- <-]. auto.
  - destruct (decrease_priority_cases item h HI)
      as [(_ & Hrun)|(i & x & Hi & Hx & _ &
            [(_ & h1 & Hrun & HI1 & Hd & Hp)|(_ & Hrun)])].
    + rewrite (bind_raise _ _ _ _ _ Hrun). intros [= <- <-]. auto.
    + rewrite (bind_ok _ _ _ _ _ Hrun). intros [= <- <-]. simpl.
      rewrite Hp, length_insert. auto.
    + rewrite (bind_raise _ _ _ _ _ Hrun). intros [= <- <-]. auto.
  - unfold bind, __len__, heap_len. intros [= <- <-]. auto.
  - unfold bind, is_empty, heap_len, bind. intros [= <- <-]. auto.
Qed.

(** On a well-formed heap a call either returns, or raises a [ValueError]
    and leaves the state as it was: no loop exhausts its bound, no index is
    out of range and no key is missing. *)
Lemma exec_outcome c h r h' :
  Inv h -> exec c h = (r, h') ->
  (exists v, r = Ok v) \/ (exists msg, r = Raise (ValueError msg) /\ h' = h).
Proof.
  intros HI. destruct c as [item| | |item|item|item| |]; simpl.
  - destruct (insert_cases item h HI)
      as [(_ & h1 & Hrun & _)|(_ & Hrun)].
    + rewrite (bind_ok _ _ _ _ _ Hrun). intros [= <- <-]. left. by eexists.
    + rewrite (bind_raise _ _ _ _ _ Hrun). intros [= <- <-]. right. by eexists.
  - destruct (pop_cases h HI)
      as [(_ & Hrun)|(x0 & rest & h1 & _ & Hrun & _)];
      rewrite (bind_ok _ _ _ _ _ Hrun); intros [= <- <-]; left; by eexists.
  - destruct (front_cases h) as [(_ & Hrun)|(x & rest & _ & Hrun)];
      rewrite (bind_ok _ _ _ _ _ Hrun); intros [= <- <-]; left; by eexists.
  - unfold bind, contains, map_mem. intros [= <- <-]. left. by eexists.
  - destruct (increase_priority_cases item h HI)
      as [(_ & Hrun)|(i & x & _ & _ & _ &
            [(_ & h1 & Hrun & _)|(_ & Hrun)])].
    + rewrite (bind_raise _ _ _ _ _ Hrun). intros [= <- <-]. right. by eexists.
    + rewrite (bind_ok _ _ _ _ _ Hrun). intros [= <- <-]. left. by eexists.
    + rewrite (bind_raise _ _ _ _ _ Hrun). intros [= <- <-]. right. by eexists.
  - destruct (decrease_priority_cases item h HI)
      as [(_ & Hrun)|(i & x & _ & _ & _ &
            [(_ & h1 & Hrun & _)|(_ & Hrun)])].
    + rewrite (bind_raise _ _ _ _ _ Hrun). intros [= <- <-]. right. by eexists.
    + rewrite (bind_ok _ _ _ _ _ Hrun). intros [= <- <-]. left. by eexists.
    + rewrite (bind_raise _ _ _ _ _ Hrun). intros [= <- <-]. right. by eexists.
  - unfold bind, __len__, heap_len. intros [= <- <-]. left. by eexists.
  - unfold bind, is_empty, heap_len, bind. intros [= <- <-]. left. by eexists.
Qed.

Lemma init_Inv arity h : __init__ arity = Ok h -> Inv h /\ heap h = [].
Proof.
  unfold __init__. case_decide as Ha; [done|]. intros [= <-].
  split; [|done]. split; simpl.
  - lia.
  - intros i x p _ Hx. by rewrite lookup_nil in Hx.
  - split; [intros i x Hx; by rewrite lookup_nil in Hx|].
    intros k i Hk. by rewrite lookup_empty in Hk.
Qed.

Lemma reachable_Inv h : reachable h -> Inv h.
Proof.
  induction 1 as [arity h Hinit|c h r h' _ IH Hrun].
  - by apply init_Inv in Hinit as [? _].
  - by apply (exec_Inv c h r h') in Hrun as [? _].
Qed.

Lemma pop_all_loop_spec fuel : forall h,
  Inv h -> length (heap h) < fuel ->
  exists out h', pop_all_loop fuel h = (Ok out, h') /\ heap h' = [] /\
                 out ≡ₚ heap h /\
                 StronglySorted (fun a b => (cost a <= cost b)%Z) out.
Proof.
  induction fuel as [|fuel IH]; intros h HI Hf; [lia|]. simpl.
  destruct (pop_cases h HI)
    as [(Hnil & Hrun)|(x0 & rest & h1 & Hh & Hrun & HI1 & Hd & Hp)];
    rewrite (bind_ok _ _ _ _ _ Hrun).
  - exists [], h. rewrite Hnil. split; [done|]. split; [done|].
    split; [done|constructor].
  - destruct (IH h1 HI1) as (out & h' & Hrun' & Hnil & Hout & Hsorted).
    { rewrite Hp in Hf. simpl in Hf. lia. }
    rewrite (bind_ok _ _ _ _ _ Hrun').
    exists (x0 :: out), h'. split; [done|]. split; [done|].
    split; [by rewrite Hp, Hout|].
    constructor; [done|]. apply Forall_forall. intros y Hy.
    rewrite Hout in Hy.
    assert (y ∈ heap h) as Hyh by (rewrite Hp; by right).
    apply list_elem_of_lookup in Hyh as [i Hi].
    eapply (root_min (d h) (heap h) x0); eauto using inv_order.
    by rewrite Hh.
Qed.

Lemma sample_heap_reachable : reachable sample_heap.
Proof.
  eapply (reach_call (Insert (mkItem 20 20)));
    [eapply (reach_call (Insert (mkItem 10 10)));
      [eapply (reach_call (Insert (mkItem 30 30)));
        [apply (reach_init 4); reflexivity|]|]|];
    vm_compute; reflexivity.
Defined.

(** * The claims *)

(** C1 (heap-order invariant). In every state a heap can be brought to, by
    constructing it with an arity of at least 2 and calling insert, pop,
    front, contains, increase_priority, decrease_priority, len and is_empty
    in any order, the arity is at least 2 and every non-root position [i]
    of the backing list holds a cost at least that of position
    [(i - 1) div d]. *)
Theorem heap_order_invariant h :
  reachable h ->
  2 <= d h /\
  forall i x p, 0 < i -> heap h !! i = Some x ->
    heap h !! ((i - 1) / d h) = Some p -> (cost p <= cost x)%Z.
Proof.
  intros Hr. apply reachable_Inv in Hr as [Hd Ho _]. split; [done|apply Ho].
Qed.

Lemma heap_order_invariant_witness :
  reachable sample_heap /\
  (2 <= d sample_heap /\
   forall i x p, 0 < i -> heap sample_heap !! i = Some x ->
     heap sample_heap !! ((i - 1) / d sample_heap) = Some p ->
     (cost p <= cost x)%Z).
Proof.
  split; [exact sample_heap_reachable|].
  apply (heap_order_invariant sample_heap). exact sample_heap_reachable.
Defined.

(** C2 (map consistency invariant). In every such state the position map
    sends the number of the item at position [i] to [i], for every position
    of the backing list, and every entry of the map is the number of the
    item at the position it gives. *)
Theorem map_consistency_invariant h :
  reachable h ->
  (forall i x, heap h !! i = Some x -> position_map h !! number x = Some i) /\
  (forall k i, position_map h !! k = Some i ->
     exists x, heap h !! i = Some x /\ number x = k).
Proof. intros Hr. apply reachable_Inv in Hr as [_ _ Hm]. exact Hm. Qed.

Lemma map_consistency_invariant_witness :
  reachable sample_heap /\
  ((forall i x, heap sample_heap !! i = Some x ->
      position_map sample_heap !! number x = Some i) /\
   (forall k i, position_map sample_heap !! k = Some i ->
      exists x, heap sample_heap !! i = Some x /\ number x = k)).
Proof.
  split; [exact sample_heap_reachable|].
  apply (map_consistency_invariant sample_heap). exact sample_heap_reachable.
Defined.

(** C3 (front). On an empty heap [front] returns [None]; on a non-empty one
    it returns an item of the heap whose cost is at most the cost of every
    item held. In both cases the state is left as it was. *)
Theorem front_contract h :
  reachable h ->
  (heap h = [] -> front h = (Ok None, h)) /\
  (heap h <> [] ->
   exists x, front h = (Ok (Some x), h) /\ x ∈ heap h /\
             forall y, y ∈ heap h -> (cost x <= cost y)%Z).
Proof.
  intros Hr. apply reachable_Inv in Hr as [Hd Ho Hm].
  split; [apply front_empty|]. intros Hne.
  destruct (front_cases h) as [(Hnil & _)|(x & rest & Hh & Hrun)]; [done|].
  exists x. split; [done|]. split; [rewrite Hh; by left|].
  intros y Hy. apply list_elem_of_lookup in Hy as [i Hi].
  eapply (root_min (d h) (heap h) x); eauto. by rewrite Hh.
Qed.

Lemma front_contract_witness :
  reachable sample_heap /\
  ((heap sample_heap = [] -> front sample_heap = (Ok None, sample_heap)) /\
   (heap sample_heap <> [] ->
    exists x, front sample_heap = (Ok (Some x), sample_heap) /\
              x ∈ heap sample_heap /\
              forall y, y ∈ heap sample_heap -> (cost x <= cost y)%Z)).
Proof.
  split; [exact sample_heap_reachable|].
  apply (front_contract sample_heap). exact sample_heap_reachable.
Defined.

(** C4 (pop ordering). Popping a heap until [pop] returns [None] ends
    within the bound, empties the heap, and yields exactly the items held,
    each costing at least the one before. *)
Theorem pop_all_sorted h :
  reachable h ->
  exists out h', pop_all h = (Ok out, h') /\ heap h' = [] /\
                 out ≡ₚ heap h /\
                 Sorted (fun a b => (cost a <= cost b)%Z) out.
Proof.
  intros Hr. apply reachable_Inv in Hr.
  unfold pop_all, __len__, bind, heap_len.
  destruct (pop_all_loop_spec (S (length (heap h))) h Hr ltac:(lia))
    as (out & h' & Hrun & Hnil & Hout & Hs).
  exists out, h'. repeat split; try done. by apply StronglySorted_Sorted.
Qed.

Lemma pop_all_sorted_witness :
  reachable sample_heap /\
  exists out h', pop_all sample_heap = (Ok out, h') /\ heap h' = [] /\
                 out ≡ₚ heap sample_heap /\
                 Sorted (fun a b => (cost a <= cost b)%Z) out.
Proof.
  split; [exact sample_heap_reachable|].
  apply (pop_all_sorted sample_heap). exact sample_heap_reachable.
Defined.

(** C5 (errors of a priority change). When no item of the heap has the
    number given, both [increase_priority] and [decrease_priority] raise the
    not-found [ValueError]. When an item [x] of the heap has it,
    [increase_priority] raises the must-be-lower [ValueError] unless the new
    cost is strictly below the cost of [x], and [decrease_priority] raises
    the must-be-higher [ValueError] unless it is strictly above. Every one
    of these calls leaves the state as it was. *)
Theorem priority_change_errors h item :
  reachable h ->
  ((forall x, x ∈ heap h -> number x <> number item) ->
   increase_priority item h =
     (Raise (ValueError ("Item with identity " +:+ pretty (number item)
                           +:+ " not found")), h) /\
   decrease_priority item h =
     (Raise (ValueError ("Item with identity " +:+ pretty (number item)
                           +:+ " not found")), h)) /\
  (forall x, x ∈ heap h -> number x = number item ->
     (¬ (cost item < cost x)%Z ->
      increase_priority item h =
        (Raise (ValueError "New cost must be lower than current cost"), h)) /\
     (¬ (cost item > cost x)%Z ->
      decrease_priority item h =
        (Raise (ValueError "New cost must be higher than current cost"), h))).
Proof.
  intros Hr. apply reachable_Inv in Hr as [Hd Ho Hm]. split.
  - intros Habs.
    pose proof (consistent_absent _ _ _ Hm Habs) as Hnone.
    split; [by apply increase_priority_absent|by apply decrease_priority_absent].
  - intros x Hx Hnum.
    destruct (consistent_present _ _ _ Hm Hx) as (i & Hi & Hxi).
    rewrite Hnum in Hi. split; intros Hc.
    + by eapply increase_priority_not_lower.
    + by eapply decrease_priority_not_higher.
Qed.

Lemma priority_change_errors_witness :
  reachable sample_heap /\
  (increase_priority (mkItem 99 5) sample_heap =
     (Raise (ValueError "Item with identity 99 not found"), sample_heap) /\
   decrease_priority (mkItem 99 5) sample_heap =
     (Raise (ValueError "Item with identity 99 not found"), sample_heap)) /\
  increase_priority (mkItem 30 30) sample_heap =
    (Raise (ValueError "New cost must be lower than current cost"),
     sample_heap) /\
  decrease_priority (mkItem 30 30) sample_heap =
    (Raise (ValueError "New cost must be higher than current cost"),
     sample_heap).
Proof.
  split; [exact sample_heap_reachable|]. split; [|split].
  - apply (proj1 (priority_change_errors sample_heap (mkItem 99 5)
                    sample_heap_reachable)).
    intros x Hx. apply list_elem_of_In in Hx. simpl in Hx.
    destruct Hx as [<-|[<-|[<-|[]]]]; simpl; lia.
  - apply (proj2 (priority_change_errors sample_heap (mkItem 30 30)
                    sample_heap_reachable) (mkItem 30 30));
      [apply list_elem_of_In; simpl; auto|reflexivity|simpl; lia].
  - apply (proj2 (priority_change_errors sample_heap (mkItem 30 30)
                    sample_heap_reachable) (mkItem 30 30));
      [apply list_elem_of_In; simpl; auto|reflexivity|simpl; lia].
Defined.

(** C6 (duplicate rejection). Inserting an item whose number is that of an
    item already in the heap raises the already-exists [ValueError] and
    leaves the state as it was. *)
Theorem insert_duplicate_rejected h item x :
  reachable h -> x ∈ heap h -> number x = number item ->
  insert item h =
    (Raise (ValueError ("Item with identity " +:+ pretty (number item)
                          +:+ " already exists")), h).
Proof.
  intros Hr Hx Hnum. apply reachable_Inv in Hr as [Hd Ho Hm].
  destruct (consistent_present _ _ _ Hm Hx) as (i & Hi & Hxi).
  rewrite Hnum in Hi. by eapply insert_duplicate.
Qed.

Lemma insert_duplicate_rejected_witness :
  reachable sample_heap /\ mkItem 30 30 ∈ heap sample_heap /\
  number (mkItem 30 30) = number (mkItem 30 7) /\
  insert (mkItem 30 7) sample_heap =
    (Raise (ValueError ("Item with identity " +:+ pretty (number (mkItem 30 7))
                          +:+ " already exists")), sample_heap).
Proof.
  assert (mkItem 30 30 ∈ heap sample_heap) as Hin
    by (simpl; apply list_elem_of_In; simpl; auto).
  split; [exact sample_heap_reachable|]. split; [exact Hin|].
  split; [reflexivity|].
  apply (insert_duplicate_rejected sample_heap (mkItem 30 7) (mkItem 30 30));
    [exact sample_heap_reachable|exact Hin|reflexivity].
Defined.

(** C7 (absence on an empty heap). With nothing in the backing list, [pop]
    and [front] return [None] and [is_empty] returns [True]; none of them
    raises, and each leaves the state as it was. *)
Theorem empty_absence h :
  heap h = [] ->
  pop h = (Ok None, h) /\ front h = (Ok None, h) /\ is_empty h = (Ok true, h).
Proof.
  intros E. split; [by apply pop_empty|]. split; [by apply front_empty|].
  unfold is_empty, bind, heap_len. by rewrite E.
Qed.

Lemma empty_absence_witness :
  heap (mkDHeap 4 [] ∅) = [] /\
  (pop (mkDHeap 4 [] ∅) = (Ok None, mkDHeap 4 [] ∅) /\
   front (mkDHeap 4 [] ∅) = (Ok None, mkDHeap 4 [] ∅) /\
   is_empty (mkDHeap 4 [] ∅) = (Ok true, mkDHeap 4 [] ∅)).
Proof.
  split; [reflexivity|]. apply (empty_absence (mkDHeap 4 [] ∅)). reflexivity.
Defined.

Lemma run_calls_size cs : forall h rs h',
  Inv h -> run_calls cs h = (rs, h') ->
  Inv h' /\
  length (heap h') + count_log popped cs rs
  = length (heap h) + count_log inserted cs rs.
Proof.
  induction cs as [|c cs IH]; intros h rs h' HI; simpl.
  - intros [= <- <-]. auto.
  - destruct (exec c h) as [r h1] eqn:E1.
    destruct (run_calls cs h1) as [rs1 h2] eqn:E2. intros [= <- <-].
    destruct (exec_Inv c h r h1 HI E1) as (HI1 & _ & Hlen1).
    destruct (IH h1 rs1 h2 HI1 E2) as (HI2 & Hlen2).
    split; [done|]. simpl. lia.
Qed.

(** C8 (size law). Construct a heap and make any calls on it, logging
    their outcomes. With [k] the number of inserts that returned and [j]
    the number of pops that returned an item, [j <= k], [len] returns
    [k - j] and [is_empty] returns whether [k - j] is zero. *)
Theorem size_law arity h0 cs rs h :
  __init__ arity = Ok h0 -> run_calls cs h0 = (rs, h) ->
  let k := count_log inserted cs rs in
  let j := count_log popped cs rs in
  j <= k /\
  __len__ h = (Ok (k - j), h) /\
  is_empty h = (Ok (bool_decide (k - j = 0)), h).
Proof.
  intros Hinit Hrun k j.
  apply init_Inv in Hinit as [HI Hnil].
  destruct (run_calls_size cs h0 rs h HI Hrun) as (_ & Hlen).
  rewrite Hnil in Hlen. simpl in Hlen. fold k j in Hlen.
  assert (length (heap h) = k - j) as E by lia.
  split; [lia|]. unfold is_empty, __len__, bind, heap_len, ret.
  by rewrite E.
Qed.

Lemma size_law_witness :
  __init__ 4 = Ok (mkDHeap 4 [] ∅) /\
  run_calls [Insert (mkItem 30 30); Insert (mkItem 10 10); Pop;
             Insert (mkItem 10 10); Insert (mkItem 10 5); Pop; Pop; Pop;
             Insert (mkItem 20 20); Insert (mkItem 30 30)]
    (mkDHeap 4 [] ∅)
  = ([Ok VNone; Ok VNone; Ok (VItem (mkItem 10 10));
      Ok VNone;
      Raise (ValueError "Item with identity 10 already exists");
      Ok (VItem (mkItem 10 10)); Ok (VItem (mkItem 30 30)); Ok VNone;
      Ok VNone; Ok VNone],
     mkDHeap 4 [mkItem 20 20; mkItem 30 30]
       (<[30%Z:=1]> (<[20%Z:=0]> ∅))) /\
  __len__ (mkDHeap 4 [mkItem 20 20; mkItem 30 30]
             (<[30%Z:=1]> (<[20%Z:=0]> ∅)))
  = (Ok 2, mkDHeap 4 [mkItem 20 20; mkItem 30 30]
             (<[30%Z:=1]> (<[20%Z:=0]> ∅))).
Proof.
  assert (__init__ 4 = Ok (mkDHeap 4 [] ∅)) as Hinit by reflexivity.
  assert (run_calls [Insert (mkItem 30 30); Insert (mkItem 10 10); Pop;
             Insert (mkItem 10 10); Insert (mkItem 10 5); Pop; Pop; Pop;
             Insert (mkItem 20 20); Insert (mkItem 30 30)]
            (mkDHeap 4 [] ∅)
          = ([Ok VNone; Ok VNone; Ok (VItem (mkItem 10 10));
              Ok VNone;
              Raise (ValueError "Item with identity 10 already exists");
              Ok (VItem (mkItem 10 10)); Ok (VItem (mkItem 30 30)); Ok VNone;
              Ok VNone; Ok VNone],
             mkDHeap 4 [mkItem 20 20; mkItem 30 30]
               (<[30%Z:=1]> (<[20%Z:=0]> ∅)))) as Hrun
    by (vm_compute; reflexivity).
  split; [exact Hinit|]. split; [exact Hrun|].
  exact (proj1 (proj2 (size_law 4 _ _ _ _ Hinit Hrun))).
Defined.

Lemma consistent_NoDup (l : list Item) (m : gmap Z nat) :
  map_consistent l m -> NoDup (number <$> l).
Proof.
  intros Hm. apply NoDup_alt. intros i j k Hi Hj.
  apply list_lookup_fmap_Some in Hi as (x & -> & Hx).
  apply list_lookup_fmap_Some in Hj as (y & Hxy & Hy).
  by eapply (map_consistent_inj l m i j x y).
Qed.

Lemma contains_present h q x :
  Inv h -> x ∈ heap h -> number q = number x -> contains q h = (Ok true, h).
Proof.
  intros [_ _ Hm] Hx Hq.
  destruct (consistent_present _ _ _ Hm Hx) as (i & Hi & _).
  unfold contains. rewrite Hq. by eapply map_mem_true.
Qed.

Lemma contains_absent h q :
  Inv h -> (forall x, x ∈ heap h -> number x <> number q) ->
  contains q h = (Ok false, h).
Proof.
  intros [_ _ Hm] Habs. unfold contains. apply map_mem_false.
  by eapply consistent_absent.
Qed.

(** C9 (round trip). After an [insert] that returned, [contains] is true
    of the number inserted; after a [pop] that returned an item,
    [contains] is false of the number of that item. *)
Theorem round_trip h :
  reachable h ->
  (forall item h', insert item h = (Ok tt, h') ->
     forall q, number q = number item -> contains q h' = (Ok true, h')) /\
  (forall x h', pop h = (Ok (Some x), h') ->
     forall q, number q = number x -> contains q h' = (Ok false, h')).
Proof.
  intros Hr. apply reachable_Inv in Hr as HI. split.
  - intros item h' Hrun q Hq.
    destruct (insert_cases item h HI)
      as [(_ & h1 & Hrun1 & HI1 & _ & Hp)|(_ & Hrun1)];
      rewrite Hrun1 in Hrun; [|done].
    injection Hrun as <-.
    apply (contains_present h1 q item HI1); [|done].
    rewrite Hp. by left.
  - intros x h' Hrun q Hq.
    destruct (pop_cases h HI)
      as [(_ & Hrun1)|(x0 & rest & h1 & _ & Hrun1 & HI1 & _ & Hp)];
      rewrite Hrun1 in Hrun; [done|].
    injection Hrun as <- <-.
    apply (contains_absent h1 q HI1). intros y Hy Hyq.
    pose proof (consistent_NoDup _ _ (inv_map h HI)) as Hnd.
    rewrite Hp in Hnd. simpl in Hnd. apply NoDup_cons in Hnd as [Hnotin _].
    apply Hnotin. apply list_elem_of_fmap. exists y. split; [congruence|done].
Qed.

Lemma round_trip_witness :
  reachable sample_heap /\
  contains (mkItem 40 0)
    (snd (insert (mkItem 40 40) sample_heap))
  = (Ok true, snd (insert (mkItem 40 40) sample_heap)) /\
  contains (mkItem 10 10) (snd (pop sample_heap))
  = (Ok false, snd (pop sample_heap)).
Proof.
  split; [exact sample_heap_reachable|]. split.
  - apply (proj1 (round_trip sample_heap sample_heap_reachable)
             (mkItem 40 40)); [vm_compute|]; reflexivity.
  - apply (proj2 (round_trip sample_heap sample_heap_reachable)
             (mkItem 10 10)); [vm_compute|]; reflexivity.
Defined.

Lemma set_cost_numbers (l : list Item) i x c :
  l !! i = Some x ->
  number <$> <[i:=mkItem (number x) c]> l = number <$> l.
Proof.
  intros Hx. rewrite list_fmap_insert. simpl.
  apply list_insert_id. by rewrite list_lookup_fmap, Hx.
Qed.

Lemma set_cost_others (l : list Item) i x c y :
  l !! i = Some x -> number y <> number x ->
  y ∈ <[i:=mkItem (number x) c]> l <-> y ∈ l.
Proof.
  intros Hx Hy. apply lookup_lt_Some in Hx as Hlt.
  rewrite !list_elem_of_lookup. split; intros [j Hj].
  - destruct (decide (j = i)) as [->|Hne].
    + rewrite list_lookup_insert_eq in Hj by done. by simplify_eq.
    + rewrite list_lookup_insert_ne in Hj by done. eauto.
  - exists j. rewrite list_lookup_insert_ne; [done|].
    intros ->. by simplify_eq.
Qed.

(** What a priority change that returned leaves alone, from what the
    case lemmas give. *)
Lemma set_cost_frame h h' item i x :
  Inv h -> Inv h' -> d h' = d h ->
  heap h !! i = Some x -> number x = number item ->
  heap h' ≡ₚ <[i:=mkItem (number x) (cost item)]> (heap h) ->
  d h' = d h /\
  length (heap h') = length (heap h) /\
  dom (position_map h') = dom (position_map h) /\
  number <$> heap h' ≡ₚ number <$> heap h /\
  (forall y, number y <> number item -> y ∈ heap h' <-> y ∈ heap h) /\
  mkItem (number item) (cost item) ∈ heap h' /\
  map_consistent (heap h') (position_map h').
Proof.
  intros HI HI' Hd Hx Hnum Hp.
  assert (number <$> heap h' ≡ₚ number <$> heap h) as Hnums
    by (rewrite Hp; by rewrite set_cost_numbers).
  split; [done|]. split; [by rewrite Hp, length_insert|].
  split; [|split; [done|]].
  - apply set_eq. intros k.
    rewrite (consistent_dom _ _ k (inv_map h HI)).
    rewrite (consistent_dom _ _ k (inv_map h' HI')). by rewrite Hnums.
  - split; [|split; [|apply (inv_map h' HI')]].
    + intros y Hy. rewrite Hp. apply set_cost_others; congruence.
    + rewrite Hp, <- Hnum. apply list_elem_of_lookup. exists i.
      apply list_lookup_insert_eq. by eapply lookup_lt_Some.
Qed.

(** C10 (frame of a priority change). After an [increase_priority] or a
    [decrease_priority] that returned, the arity, the number of items, the
    keys of the position map and the numbers held are what they were; every
    item with another number is held with the cost it had; the item with the
    number given is held with the new cost; and the position map agrees
    with the backing list. *)
Theorem priority_change_frame h item h' :
  reachable h ->
  increase_priority item h = (Ok tt, h') \/
  decrease_priority item h = (Ok tt, h') ->
  d h' = d h /\
  length (heap h') = length (heap h) /\
  dom (position_map h') = dom (position_map h) /\
  number <$> heap h' ≡ₚ number <$> heap h /\
  (forall y, number y <> number item -> y ∈ heap h' <-> y ∈ heap h) /\
  mkItem (number item) (cost item) ∈ heap h' /\
  map_consistent (heap h') (position_map h').
Proof.
  intros Hr [Hrun|Hrun]; apply reachable_Inv in Hr as HI.
  - destruct (increase_priority_cases item h HI)
      as [(_ & Hrun1)|(i & x & Hi & Hx & Hnum &
            [(_ & h1 & Hrun1 & HI1 & Hd & Hp)|(_ & Hrun1)])];
      rewrite Hrun1 in Hrun; try done.
    injection Hrun as <-. by eapply set_cost_frame.
  - destruct (decrease_priority_cases item h HI)
      as [(_ & Hrun1)|(i & x & Hi & Hx & Hnum &
            [(_ & h1 & Hrun1 & HI1 & Hd & Hp)|(_ & Hrun1)])];
      rewrite Hrun1 in Hrun; try done.
    injection Hrun as <-. by eapply set_cost_frame.
Qed.

Lemma priority_change_frame_witness :
  reachable sample_heap /\
  (increase_priority (mkItem 30 5) sample_heap
   = (Ok tt, mkDHeap 4 [mkItem 30 5; mkItem 10 10; mkItem 20 20]
               (<[20%Z:=2]> (<[10%Z:=1]> (<[30%Z:=0]> ∅)))) \/
   decrease_priority (mkItem 30 5) sample_heap
   = (Ok tt, mkDHeap 4 [mkItem 30 5; mkItem 10 10; mkItem 20 20]
               (<[20%Z:=2]> (<[10%Z:=1]> (<[30%Z:=0]> ∅))))) /\
  length [mkItem 30 5; mkItem 10 10; mkItem 20 20]
  = length (heap sample_heap).
Proof.
  assert (increase_priority (mkItem 30 5) sample_heap
          = (Ok tt, mkDHeap 4 [mkItem 30 5; mkItem 10 10; mkItem 20 20]
                      (<[20%Z:=2]> (<[10%Z:=1]> (<[30%Z:=0]> ∅))))) as Hrun
    by (vm_compute; reflexivity).
  split; [exact sample_heap_reachable|]. split; [left; exact Hrun|].
  exact (proj1 (proj2 (priority_change_frame sample_heap (mkItem 30 5) _
                         sample_heap_reachable (or_introl Hrun)))).
Defined.

(** * Further properties of the code *)

(** ** The constructor *)

(** X1 (constructor). [DHeap(arity)] raises the arity [ValueError] exactly
    when [arity < 2]; otherwise it returns a heap of that arity that holds
    nothing: its length is 0, [pop] and [front] return [None], and
    [contains] is false of every item. *)
Theorem init_contract arity :
  ((arity < 2)%Z <->
   __init__ arity = Raise (ValueError "Heap arity must be at least 2")) /\
  ((2 <= arity)%Z <->
   exists h, __init__ arity = Ok h /\ Z.of_nat (d h) = arity /\
             __len__ h = (Ok 0, h) /\ is_empty h = (Ok true, h) /\
             pop h = (Ok None, h) /\ front h = (Ok None, h) /\
             forall q, contains q h = (Ok false, h)).
Proof.
  unfold __init__. destruct (decide (arity < 2)%Z) as [Hlt|Hge]; split.
  - done.
  - split; [lia|]. by intros (h & [=] & _).
  - split; [lia|done].
  - split; [|lia]. intros _. eexists. split; [done|]. simpl.
    split; [lia|]. repeat split.
Qed.

(** ** Index arithmetic: [_parent] and [_children] *)

(** X2 (children and parent). With an arity of at least 1, the positions
    [_children] returns for [index] are exactly the positions of the
    backing list, other than the root, whose [_parent] is [index]. *)
Theorem children_parent_inverse h index c :
  1 <= d h ->
  exists cs, _children index h = (Ok cs, h) /\
    (c ∈ cs <->
     0 < c < length (heap h) /\ _parent c h = (Ok index, h)).
Proof.
  intros Hd. eexists. split; [reflexivity|].
  rewrite (children_spec h index c Hd), (_parent_ok c h Hd).
  split.
  - intros (Hc & Hp & Hl). split; [lia|]. by rewrite Hp.
  - intros ([Hc Hl] & [= Hp]). auto.
Qed.

Lemma children_parent_inverse_witness :
  1 <= d sample_heap /\
  exists cs, _children 0 sample_heap = (Ok cs, sample_heap) /\
    (2 ∈ cs <->
     0 < 2 < length (heap sample_heap) /\
     _parent 2 sample_heap = (Ok 0, sample_heap)).
Proof.
  assert (1 <= d sample_heap) as Hd by (simpl; lia).
  split; [exact Hd|]. exact (children_parent_inverse sample_heap 0 2 Hd).
Defined.

(** X3 (bounds of [_children]). [_children] never raises and leaves the
    state alone; it returns at most [d] positions, consecutive from
    [d * index + 1], all of them after [index] and valid positions of the
    backing list; and it returns none exactly when [d] is 0 or
    [d * index + 1] is not a valid position. *)
Theorem children_bounds h index :
  exists cs, _children index h = (Ok cs, h) /\
    length cs <= d h /\
    (forall k c, cs !! k = Some c -> c = d h * index + 1 + k) /\
    (forall c, c ∈ cs -> index < c < length (heap h)) /\
    (cs = [] <-> d h = 0 \/ length (heap h) <= d h * index + 1).
Proof.
  eexists. split; [reflexivity|].
  set (start := d h * index + 1).
  set (n := Nat.min (start + d h) (length (heap h)) - start).
  split; [rewrite length_seq; lia|]. split; [|split].
  - intros k c Hk. apply lookup_seq in Hk. lia.
  - intros c Hc. apply elem_of_seq in Hc.
    assert (d h = 0 \/ index < start) by (unfold start; nia). lia.
  - split.
    + intros E. apply (f_equal length) in E. rewrite length_seq in E.
      simpl in E. lia.
    + intros Hz. replace n with 0 by lia. done.
Qed.

(** ** [_swap] *)

Lemma _swap_run i j a b h :
  heap h !! i = Some a -> heap h !! j = Some b ->
  _swap i j h =
    (Ok tt, mkDHeap (d h) (swapped i j a b (heap h))
              (<[number a:=j]> (<[number b:=i]> (position_map h)))).
Proof.
  intros Hi Hj. destruct (decide (i = j)) as [->|Hne]; [|by apply _swap_ok].
  assert (a = b) as -> by congruence. unfold _swap.
  apply lookup_lt_Some in Hj as Hlj.
  rewrite !(bind_ok _ _ _ _ _ (heap_get_ok j b h Hj)).
  rewrite (bind_ok _ _ _ _ _ (heap_set_ok j b h Hlj)).
  erewrite bind_ok; [|apply heap_set_ok; simpl; by rewrite length_insert].
  erewrite bind_ok; cycle 1.
  { apply heap_get_ok. simpl. apply list_lookup_insert_eq.
    by rewrite length_insert. }
  unfold map_set at 1. unfold bind at 1. simpl.
  erewrite bind_ok; cycle 1.
  { apply heap_get_ok. simpl. apply list_lookup_insert_eq.
    by rewrite length_insert. }
  reflexivity.
Qed.

Lemma _swap_raise i j h :
  length (heap h) <= i \/ length (heap h) <= j ->
  _swap i j h = (Raise IndexError, h).
Proof.
  intros Hout. unfold _swap.
  destruct (heap h !! j) as [b|] eqn:Hj; cycle 1.
  { apply bind_raise. unfold heap_get. by rewrite Hj. }
  rewrite (bind_ok _ _ _ _ _ (heap_get_ok j b h Hj)).
  apply lookup_lt_Some in Hj.
  assert (heap h !! i = None) as Hi by (apply lookup_ge_None; lia).
  apply bind_raise. unfold heap_get. by rewrite Hi.
Qed.

(** Every run of [_swap], on any state. *)
Lemma _swap_inv i j h r h' :
  _swap i j h = (r, h') ->
  (r = Raise IndexError /\ h' = h /\
   (length (heap h) <= i \/ length (heap h) <= j)) \/
  (exists a b, heap h !! i = Some a /\ heap h !! j = Some b /\
     r = Ok tt /\ d h' = d h /\ heap h' = swapped i j a b (heap h) /\
     position_map h' = <[number a:=j]> (<[number b:=i]> (position_map h))).
Proof.
  destruct (heap h !! i) as [a|] eqn:Hi; cycle 1.
  { apply lookup_ge_None in Hi. rewrite _swap_raise by auto.
    intros [= <- <-]. left. auto. }
  destruct (heap h !! j) as [b|] eqn:Hj; cycle 1.
  { apply lookup_ge_None in Hj. rewrite _swap_raise by auto.
    intros [= <- <-]. left. auto. }
  rewrite (_swap_run i j a b h Hi Hj). intros [= <- <-].
  right. exists a, b. simpl. repeat split; done.
Qed.

(** X4 ([_swap] out of range). When either position is not a position of
    the backing list, [_swap] raises [IndexError] before it writes
    anything: the state is left as it was. *)
Theorem swap_out_of_range i j h :
  length (heap h) <= i \/ length (heap h) <= j ->
  _swap i j h = (Raise IndexError, h).
Proof. apply _swap_raise. Qed.

Lemma swap_out_of_range_witness :
  (length (heap sample_heap) <= 1 \/ length (heap sample_heap) <= 3) /\
  _swap 1 3 sample_heap = (Raise IndexError, sample_heap).
Proof.
  assert (length (heap sample_heap) <= 1 \/ length (heap sample_heap) <= 3)
    as H by (right; simpl; lia).
  split; [exact H|]. exact (swap_out_of_range 1 3 sample_heap H).
Defined.

(** X5 (what [_swap] does). On two positions of the backing list, [_swap]
    returns; the two items have changed places and every other position
    holds what it held; the arity and the length are the same; the map sends
    the two numbers to their new positions; and a map that agreed with the
    list agrees with the new one. *)
Theorem swap_exchanges i j a b h :
  heap h !! i = Some a -> heap h !! j = Some b ->
  exists h', _swap i j h = (Ok tt, h') /\
    d h' = d h /\ length (heap h') = length (heap h) /\
    heap h' !! i = Some b /\ heap h' !! j = Some a /\
    (forall n, n <> i -> n <> j -> heap h' !! n = heap h !! n) /\
    position_map h' !! number a = Some j /\
    (map_consistent (heap h) (position_map h) ->
     position_map h' !! number b = Some i /\
     map_consistent (heap h') (position_map h')).
Proof.
  intros Hi Hj. eexists. split; [by apply _swap_run|]. simpl.
  apply lookup_lt_Some in Hi as Hli. apply lookup_lt_Some in Hj as Hlj.
  split; [done|]. split; [apply swapped_length|].
  destruct (decide (i = j)) as [->|Hne].
  - assert (a = b) as -> by congruence. unfold swapped.
    split; [|split; [|split; [|split]]].
    + apply list_lookup_insert_eq. by rewrite length_insert.
    + apply list_lookup_insert_eq. by rewrite length_insert.
    + intros n Hn _. by rewrite !list_lookup_insert_ne.
    + apply lookup_insert_eq.
    + intros Hm. split; [apply lookup_insert_eq|].
      rewrite insert_insert_eq.
      rewrite (insert_id (position_map h)) by (by apply Hm).
      by rewrite !(list_insert_id (heap h) j b Hj).
  - split; [|split; [|split; [|split]]].
    + rewrite (swapped_lookup _ _ _ _ _ _ Hne Hi Hj).
      rewrite decide_False by done. by rewrite decide_True.
    + rewrite (swapped_lookup _ _ _ _ _ _ Hne Hi Hj). by rewrite decide_True.
    + intros n Hni Hnj. rewrite (swapped_lookup _ _ _ _ _ _ Hne Hi Hj).
      by rewrite !decide_False.
    + apply lookup_insert_eq.
    + intros Hm. split; [|by apply map_consistent_swapped].
      rewrite lookup_insert_ne; [apply lookup_insert_eq|].
      intros E. apply Hne. by eapply (map_consistent_inj _ _ i j a b).
Qed.

Lemma swap_exchanges_witness :
  heap sample_heap !! 0 = Some (mkItem 10 10) /\
  heap sample_heap !! 2 = Some (mkItem 20 20) /\
  exists h', _swap 0 2 sample_heap = (Ok tt, h') /\
    d h' = d sample_heap /\ length (heap h') = length (heap sample_heap) /\
    heap h' !! 0 = Some (mkItem 20 20) /\ heap h' !! 2 = Some (mkItem 10 10) /\
    (forall n, n <> 0 -> n <> 2 -> heap h' !! n = heap sample_heap !! n) /\
    position_map h' !! number (mkItem 10 10) = Some 2 /\
    (map_consistent (heap sample_heap) (position_map sample_heap) ->
     position_map h' !! number (mkItem 20 20) = Some 0 /\
     map_consistent (heap h') (position_map h')).
Proof.
  split; [reflexivity|]. split; [reflexivity|].
  apply (swap_exchanges 0 2 (mkItem 10 10) (mkItem 20 20) sample_heap);
    reflexivity.
Defined.

Lemma swap_exchanges_aux i j a b h :
  heap h !! i = Some a -> heap h !! j = Some b ->
  swapped i j a b (heap h) !! i = Some b /\
  swapped i j a b (heap h) !! j = Some a.
Proof.
  intros Hi Hj.
  apply lookup_lt_Some in Hi as Hli. apply lookup_lt_Some in Hj as Hlj.
  destruct (decide (i = j)) as [->|Hne].
  - assert (a = b) as -> by congruence. unfold swapped.
    split; apply list_lookup_insert_eq; by rewrite length_insert.
  - rewrite !(swapped_lookup _ _ _ _ _ _ Hne Hi Hj).
    rewrite decide_False by done. by rewrite !decide_True.
Qed.

(** X6 ([_swap] twice). On a state whose map agrees with its list, swapping
    the same two positions twice gives back the very state: list and map. *)
Theorem swap_involutive i j h :
  map_consistent (heap h) (position_map h) ->
  i < length (heap h) -> j < length (heap h) ->
  (_swap i j ;;; _swap i j) h = (Ok tt, h).
Proof.
  intros Hm Hli Hlj.
  destruct (lookup_lt_is_Some_2 _ _ Hli) as [a Hi].
  destruct (lookup_lt_is_Some_2 _ _ Hlj) as [b Hj].
  destruct (swap_exchanges_aux i j a b h Hi Hj) as (Hi' & Hj').
  rewrite (bind_ok _ _ _ _ _ (_swap_run i j a b h Hi Hj)).
  erewrite _swap_run; [|exact Hi'|exact Hj'].
  destruct h as [dd l m]. simpl in *. f_equal. f_equal.
  - apply list_eq. intros n. unfold swapped.
    destruct (decide (n = j)) as [->|Hnj].
    + rewrite list_lookup_insert_eq by (by rewrite !length_insert). done.
    + rewrite list_lookup_insert_ne by done.
      destruct (decide (n = i)) as [->|Hni].
      * rewrite list_lookup_insert_eq by (by rewrite !length_insert). done.
      * by rewrite !list_lookup_insert_ne.
  - apply map_eq. intros k. destruct Hm as [Hfw _].
    apply Hfw in Hi as Hma. apply Hfw in Hj as Hmb.
    rewrite !lookup_insert. repeat case_decide; congruence.
Qed.

Lemma swap_involutive_witness :
  map_consistent (heap sample_heap) (position_map sample_heap) /\
  0 < length (heap sample_heap) /\ 2 < length (heap sample_heap) /\
  (_swap 0 2 ;;; _swap 0 2) sample_heap = (Ok tt, sample_heap).
Proof.
  assert (map_consistent (heap sample_heap) (position_map sample_heap)) as Hm
    by exact (inv_map _ (reachable_Inv _ sample_heap_reachable)).
  assert (0 < length (heap sample_heap)) as H0 by (simpl; lia).
  assert (2 < length (heap sample_heap)) as H2 by (simpl; lia).
  split; [exact Hm|]. split; [exact H0|]. split; [exact H2|].
  exact (swap_involutive 0 2 sample_heap Hm H0 H2).
Defined.

(** ** The two loops end, whatever the state *)

Lemma bind_agree {A B} (m : M A) (k1 k2 : A -> M B) h :
  fst (m h) <> OutOfFuel ->
  (forall a h', m h = (Ok a, h') ->
     k1 a h' = k2 a h' /\ fst (k1 a h') <> OutOfFuel) ->
  bind m k1 h = bind m k2 h /\ fst (bind m k1 h) <> OutOfFuel.
Proof.
  intros Hm Hk. unfold bind. destruct (m h) as [[a|e|] h'] eqn:E; simpl in *.
  - by apply Hk.
  - done.
  - done.
Qed.

Lemma heap_get_inv i h r h' :
  heap_get i h = (r, h') -> h' = h /\ r <> OutOfFuel.
Proof. unfold heap_get. destruct (heap h !! i); by intros [= <- <-]. Qed.

Lemma _parent_inv index h r h' :
  _parent index h = (r, h') ->
  h' = h /\ r <> OutOfFuel /\ forall p, r = Ok p -> p = (index - 1) / d h.
Proof.
  unfold _parent. case_decide; intros [= <- <-]; repeat split; try done.
  by intros p [= <-].
Qed.

Lemma min_scan_inv rest : forall best key h r h',
  min_scan best key rest h = (r, h') ->
  h' = h /\ r <> OutOfFuel /\ forall m, r = Ok m -> m = best \/ m ∈ rest.
Proof.
  induction rest as [|c rest IH]; intros best key h r h'; simpl.
  - intros [= <- <-]. repeat split; try done. intros m [= <-]. by left.
  - unfold bind. destruct (heap_get c h) as [[x|e|] h1] eqn:E;
      apply heap_get_inv in E as [-> Hne]; [|by intros [= <- <-]|done].
    case_decide; intros Hrun; apply IH in Hrun as (-> & Hr & Hm);
      repeat split; try done; intros m Em;
      destruct (Hm m Em) as [->|Hin]; auto using list_elem_of_here,
        list_elem_of_further.
Qed.

Lemma min_by_cost_inv cs h r h' :
  min_by_cost cs h = (r, h') ->
  h' = h /\ r <> OutOfFuel /\ forall m, r = Ok m -> m ∈ cs.
Proof.
  destruct cs as [|c rest]; simpl.
  - by intros [= <- <-].
  - unfold bind. destruct (heap_get c h) as [[x|e|] h1] eqn:E;
      apply heap_get_inv in E as [-> Hne]; [|by intros [= <- <-]|done].
    intros Hrun. apply min_scan_inv in Hrun as (-> & Hr & Hm).
    repeat split; try done. intros m Em.
    destruct (Hm m Em) as [->|Hin]; auto using list_elem_of_here,
      list_elem_of_further.
Qed.

Lemma _swap_not_out_of_fuel i j h : fst (_swap i j h) <> OutOfFuel.
Proof.
  destruct (_swap i j h) as [r h'] eqn:E.
  apply _swap_inv in E as [(-> & _)|(a & b & _ & _ & -> & _)]; done.
Qed.

Lemma bubble_up_loop_fuel f1 : forall f2 index h,
  index < f1 -> index < f2 ->
  bubble_up_loop f1 index h = bubble_up_loop f2 index h /\
  fst (bubble_up_loop f1 index h) <> OutOfFuel.
Proof.
  induction f1 as [|f1 IH]; intros [|f2] index h H1 H2; try lia. simpl.
  case_decide as Hpos; [|done].
  pose proof (parent_lt (d h) index Hpos) as Hp.
  apply bind_agree.
  { destruct (_parent index h) as [r h'] eqn:E.
    by apply _parent_inv in E as (_ & ? & _). }
  intros p h' E. apply _parent_inv in E as (-> & _ & Ep).
  rewrite (Ep p eq_refl). clear Ep.
  apply bind_agree.
  { destruct (heap_get index h) as [r h'] eqn:E.
    by apply heap_get_inv in E as [_ ?]. }
  intros x h' E. apply heap_get_inv in E as [-> _].
  apply bind_agree.
  { destruct (heap_get ((index - 1) / d h) h) as [r h'] eqn:E.
    by apply heap_get_inv in E as [_ ?]. }
  intros y h' E. apply heap_get_inv in E as [-> _].
  case_decide; [|done].
  apply bind_agree; [apply _swap_not_out_of_fuel|].
  intros [] h1 _. apply IH; lia.
Qed.

(** X7 ([_bubble_up] ends). On any state and from any position, valid or
    not, the loop of [_bubble_up] ends within [index + 1] rounds: a larger
    bound gives the same result and the same state, and the bound is never
    what stops it. *)
Theorem bubble_up_terminates fuel index h :
  index < fuel ->
  bubble_up_loop fuel index h = _bubble_up index h /\
  fst (_bubble_up index h) <> OutOfFuel.
Proof.
  intros Hf. unfold _bubble_up.
  destruct (bubble_up_loop_fuel (S index) fuel index h) as [E Hne]; [lia..|].
  by rewrite E in *.
Qed.

Lemma bubble_up_terminates_witness :
  2 < 7 /\
  bubble_up_loop 7 2 sample_heap = _bubble_up 2 sample_heap /\
  fst (_bubble_up 2 sample_heap) <> OutOfFuel.
Proof.
  assert (2 < 7) as H by lia.
  split; [exact H|]. exact (bubble_up_terminates 7 2 sample_heap H).
Defined.

Lemma bubble_down_loop_S fuel index h :
  bubble_down_loop (S fuel) index h =
    match seq (d h * index + 1)
            (Nat.min (d h * index + 1 + d h) (length (heap h))
             - (d h * index + 1)) with
    | [] => (Ok tt, h)
    | c :: cs =>
        (min_child <- min_by_cost (c :: cs) ;;
         x <- heap_get index ;;
         m <- heap_get min_child ;;
         if decide (cost x > cost m)%Z then
           _swap index min_child ;;;
           bubble_down_loop fuel min_child
         else ret tt) h
    end.
Proof.
  cbn [bubble_down_loop]. unfold bind at 1. unfold _children.
  by destruct (seq _ _).
Qed.

Lemma bubble_down_loop_fuel f1 : forall f2 index h,
  length (heap h) - index < f1 -> length (heap h) - index < f2 ->
  bubble_down_loop f1 index h = bubble_down_loop f2 index h /\
  fst (bubble_down_loop f1 index h) <> OutOfFuel.
Proof.
  induction f1 as [|f1 IH]; intros [|f2] index h H1 H2; try lia.
  rewrite !bubble_down_loop_S.
  destruct (seq _ _) as [|c0 rest] eqn:Ecs; [done|].
  apply bind_agree.
  { destruct (min_by_cost (c0 :: rest) h) as [r h'] eqn:E.
    by apply min_by_cost_inv in E as (_ & ? & _). }
  intros m h' E. apply min_by_cost_inv in E as (-> & _ & Hm).
  specialize (Hm m eq_refl). rewrite <- Ecs in Hm.
  apply elem_of_seq in Hm.
  assert (index < m < length (heap h)) as Hrange.
  { assert (d h = 0 \/ index < d h * index + 1) by nia. lia. }
  apply bind_agree.
  { destruct (heap_get index h) as [r h'] eqn:E.
    by apply heap_get_inv in E as [_ ?]. }
  intros x h' E. apply heap_get_inv in E as [-> _].
  apply bind_agree.
  { destruct (heap_get m h) as [r h'] eqn:E.
    by apply heap_get_inv in E as [_ ?]. }
  intros y h' E. apply heap_get_inv in E as [-> _].
  case_decide; [|done].
  apply bind_agree; [apply _swap_not_out_of_fuel|].
  intros [] h1 E.
  apply _swap_inv in E as [(? & _)|(a & b & _ & _ & _ & _ & Hh & _)]; [done|].
  apply IH; rewrite Hh, swapped_length; lia.
Qed.

(** X8 ([_bubble_down] ends). On any state and from any position, the loop
    of [_bubble_down] ends within [len(self.heap) + 1] rounds: any bound
    above [len(self.heap) - index] gives the same result and the same
    state, and the bound is never what stops it. *)
Theorem bubble_down_terminates fuel index h :
  length (heap h) - index < fuel ->
  bubble_down_loop fuel index h = _bubble_down index h /\
  fst (_bubble_down index h) <> OutOfFuel.
Proof.
  intros Hf.
  assert (_bubble_down index h
          = bubble_down_loop (S (length (heap h))) index h) as -> by done.
  destruct (bubble_down_loop_fuel (S (length (heap h))) fuel index h)
    as [E Hne]; [lia..|].
  by rewrite E in *.
Qed.

Lemma bubble_down_terminates_witness :
  length (heap sample_heap) - 0 < 9 /\
  bubble_down_loop 9 0 sample_heap = _bubble_down 0 sample_heap /\
  fst (_bubble_down 0 sample_heap) <> OutOfFuel.
Proof.
  assert (length (heap sample_heap) - 0 < 9) as H by (simpl; lia).
  split; [exact H|]. exact (bubble_down_terminates 9 0 sample_heap H).
Defined.

(** ** The two loops on a heap already in order *)

(** X9 ([_bubble_up] on an ordered heap). When the backing list is in heap
    order, [_bubble_up] from any of its positions returns without a swap:
    the state is left as it was. *)
Theorem bubble_up_ordered_noop index h :
  1 <= d h -> heap_ordered (d h) (heap h) -> index < length (heap h) ->
  _bubble_up index h = (Ok tt, h).
Proof.
  intros Hd Ho Hlen. unfold _bubble_up. simpl.
  case_decide as Hpos; [|done].
  pose proof (parent_lt (d h) index Hpos) as Hp.
  destruct (lookup_lt_is_Some_2 (heap h) index Hlen) as [x Hx].
  destruct (lookup_lt_is_Some_2 (heap h) ((index - 1) / d h) ltac:(lia))
    as [y Hy].
  rewrite (bind_ok _ _ _ _ _ (_parent_ok index h Hd)).
  rewrite (bind_ok _ _ _ _ _ (heap_get_ok _ _ _ Hx)).
  rewrite (bind_ok _ _ _ _ _ (heap_get_ok _ _ _ Hy)).
  rewrite decide_False; [done|].
  pose proof (Ho index x y Hpos Hx Hy). lia.
Qed.

Lemma bubble_up_ordered_noop_witness :
  1 <= d sample_heap /\
  heap_ordered (d sample_heap) (heap sample_heap) /\
  2 < length (heap sample_heap) /\
  _bubble_up 2 sample_heap = (Ok tt, sample_heap).
Proof.
  assert (1 <= d sample_heap) as Hd by (simpl; lia).
  assert (heap_ordered (d sample_heap) (heap sample_heap)) as Ho
    by exact (inv_order _ (reachable_Inv _ sample_heap_reachable)).
  assert (2 < length (heap sample_heap)) as Hl by (simpl; lia).
  split; [exact Hd|]. split; [exact Ho|]. split; [exact Hl|].
  exact (bubble_up_ordered_noop 2 sample_heap Hd Ho Hl).
Defined.

(** X10 ([_bubble_down] on an ordered heap). When the backing list is in
    heap order, [_bubble_down] from any of its positions returns without a
    swap: the state is left as it was. *)
Theorem bubble_down_ordered_noop index h :
  1 <= d h -> heap_ordered (d h) (heap h) -> index < length (heap h) ->
  _bubble_down index h = (Ok tt, h).
Proof.
  intros Hd Ho Hlen.
  assert (_bubble_down index h
          = bubble_down_loop (S (length (heap h))) index h) as -> by done.
  rewrite bubble_down_loop_S.
  pose proof (children_spec h index) as Hch.
  destruct (seq _ _) as [|c0 rest] eqn:Ecs; [done|].
  destruct (min_by_cost_spec c0 rest h) as (m & y & Hrun & Hm & Hy & _).
  { intros c Hc. apply Hch in Hc; [lia|done]. }
  apply Hch in Hm as (Hm0 & Hmp & Hml); [|done].
  destruct (lookup_lt_is_Some_2 (heap h) index Hlen) as [x Hx].
  rewrite (bind_ok _ _ _ _ _ Hrun).
  rewrite (bind_ok _ _ _ _ _ (heap_get_ok _ _ _ Hx)).
  rewrite (bind_ok _ _ _ _ _ (heap_get_ok _ _ _ Hy)).
  rewrite decide_False; [done|].
  assert (cost x <= cost y)%Z; [|lia].
  apply (Ho m y x Hm0 Hy). by rewrite Hmp.
Qed.

Lemma bubble_down_ordered_noop_witness :
  1 <= d sample_heap /\
  heap_ordered (d sample_heap) (heap sample_heap) /\
  0 < length (heap sample_heap) /\
  _bubble_down 0 sample_heap = (Ok tt, sample_heap).
Proof.
  assert (1 <= d sample_heap) as Hd by (simpl; lia).
  assert (heap_ordered (d sample_heap) (heap sample_heap)) as Ho
    by exact (inv_order _ (reachable_Inv _ sample_heap_reachable)).
  assert (0 < length (heap sample_heap)) as Hl by (simpl; lia).
  split; [exact Hd|]. split; [exact Ho|]. split; [exact Hl|].
  exact (bubble_down_ordered_noop 0 sample_heap Hd Ho Hl).
Defined.

(** ** The child [_bubble_down] picks *)

Lemma min_scan_first rest : forall best yb h,
  heap h !! best = Some yb ->
  (forall c, c ∈ rest -> c < length (heap h)) ->
  exists m y, min_scan best (cost yb) rest h = (Ok m, h) /\
    heap h !! m = Some y /\ (cost y <= cost yb)%Z /\
    (forall c xc, c ∈ rest -> heap h !! c = Some xc ->
       (cost y <= cost xc)%Z) /\
    (m = best /\ y = yb \/
     exists k, rest !! k = Some m /\ (cost y < cost yb)%Z /\
       forall k' c' xc, k' < k -> rest !! k' = Some c' ->
         heap h !! c' = Some xc -> (cost y < cost xc)%Z).
Proof.
  induction rest as [|c rest IH]; intros best yb h Hb Hin; simpl.
  - exists best, yb. split; [done|]. split; [done|]. split; [lia|].
    split; [|by left]. intros c xc Hc. by apply elem_of_nil in Hc.
  - destruct (lookup_lt_is_Some_2 (heap h) c) as [x Hx].
    { apply Hin. by left. }
    rewrite (bind_ok _ _ _ _ _ (heap_get_ok _ _ _ Hx)).
    assert (forall c', c' ∈ rest -> c' < length (heap h)) as Hin'
      by (intros c' Hc'; apply Hin; by right).
    destruct (decide (cost x < cost yb)%Z) as [Hlt|Hge].
    + destruct (IH c x h Hx Hin') as (m & y & Hrun & Hy & Hle & Hall & Hpos).
      exists m, y. split; [done|]. split; [done|]. split; [lia|]. split.
      { intros c' xc' Hc' Hxc'. apply elem_of_cons in Hc' as [->|Hc'].
        - by simplify_eq.
        - by eapply Hall. }
      right. destruct Hpos as [[-> ->]|(k & Hk & Hlt' & Hearlier)].
      * exists 0. split; [done|]. split; [done|]. intros; lia.
      * exists (S k). split; [done|]. split; [lia|].
        intros [|k'] c' xc Hk' Hc' Hxc; simpl in Hc'.
        -- simplify_eq. lia.
        -- eapply (Hearlier k'); eauto. lia.
    + destruct (IH best yb h Hb Hin') as (m & y & Hrun & Hy & Hle & Hall & Hpos).
      exists m, y. split; [done|]. split; [done|]. split; [lia|]. split.
      { intros c' xc' Hc' Hxc'. apply elem_of_cons in Hc' as [->|Hc'].
        - simplify_eq. lia.
        - by eapply Hall. }
      destruct Hpos as [[-> ->]|(k & Hk & Hlt' & Hearlier)]; [by left|].
      right. exists (S k). split; [done|]. split; [lia|].
      intros [|k'] c' xc Hk' Hc' Hxc; simpl in Hc'.
      -- simplify_eq. lia.
      -- eapply (Hearlier k'); eauto. lia.
Qed.

(** X11 (the child picked). On a non-empty list of positions of the
    backing list, the [min(..., key=cost)] of [_bubble_down] returns, leaves
    the state alone, and picks the first position of least cost: no position
    of the list is cheaper, and every position before it in the list is
    strictly dearer. *)
Theorem min_by_cost_first c0 rest h :
  (forall c, c ∈ c0 :: rest -> c < length (heap h)) ->
  exists k m y, min_by_cost (c0 :: rest) h = (Ok m, h) /\
    (c0 :: rest) !! k = Some m /\ heap h !! m = Some y /\
    (forall c xc, c ∈ c0 :: rest -> heap h !! c = Some xc ->
       (cost y <= cost xc)%Z) /\
    (forall k' c' xc, k' < k -> (c0 :: rest) !! k' = Some c' ->
       heap h !! c' = Some xc -> (cost y < cost xc)%Z).
Proof.
  intros Hin. simpl.
  destruct (lookup_lt_is_Some_2 (heap h) c0) as [x Hx].
  { apply Hin. by left. }
  rewrite (bind_ok _ _ _ _ _ (heap_get_ok _ _ _ Hx)).
  destruct (min_scan_first rest c0 x h Hx)
    as (m & y & Hrun & Hy & Hle & Hall & Hpos).
  { intros c Hc. apply Hin. by right. }
  assert (forall c xc, c ∈ c0 :: rest -> heap h !! c = Some xc ->
            (cost y <= cost xc)%Z) as Hall'.
  { intros c xc Hc Hxc. apply elem_of_cons in Hc as [->|Hc].
    - by simplify_eq.
    - by eapply Hall. }
  destruct Hpos as [[-> ->]|(k & Hk & Hlt & Hearlier)].
  - exists 0, c0, x. repeat split; try done. intros; lia.
  - exists (S k), m, y. repeat split; try done.
    intros [|k'] c' xc Hk' Hc' Hxc; simpl in Hc'.
    + simplify_eq. lia.
    + eapply (Hearlier k'); eauto. lia.
Qed.

Lemma min_by_cost_first_witness :
  (forall c, c ∈ [1; 2] -> c < length (heap sample_heap)) /\
  exists k m y, min_by_cost [1; 2] sample_heap = (Ok m, sample_heap) /\
    [1; 2] !! k = Some m /\ heap sample_heap !! m = Some y /\
    (forall c xc, c ∈ [1; 2] -> heap sample_heap !! c = Some xc ->
       (cost y <= cost xc)%Z) /\
    (forall k' c' xc, k' < k -> [1; 2] !! k' = Some c' ->
       heap sample_heap !! c' = Some xc -> (cost y < cost xc)%Z).
Proof.
  assert (forall c, c ∈ [1; 2] -> c < length (heap sample_heap)) as Hin.
  { intros c Hc. apply list_elem_of_In in Hc. simpl in *.
    destruct Hc as [<-|[<-|[]]]; lia. }
  split; [exact Hin|]. exact (min_by_cost_first 1 [2] sample_heap Hin).
Defined.

(** ** The public methods together *)

(** X12 (exception safety). On every reachable heap, every call of the
    public interface either returns, or raises a [ValueError] and leaves
    the state as it was: no call raises [IndexError], [KeyError] or
    [ZeroDivisionError], and none fails half-way through its writes. *)
Theorem call_exception_safety h c r h' :
  reachable h -> exec c h = (r, h') ->
  (exists v, r = Ok v) \/ (exists msg, r = Raise (ValueError msg) /\ h' = h).
Proof. intros Hr. apply exec_outcome. by apply reachable_Inv. Qed.

Lemma call_exception_safety_witness :
  reachable sample_heap /\
  exec (DecreasePriority (mkItem 20 3)) sample_heap
  = (Raise (ValueError "New cost must be higher than current cost"),
     sample_heap) /\
  ((exists v, @Raise value
                (ValueError "New cost must be higher than current cost")
              = Ok v) \/
   (exists msg,
      @Raise value (ValueError "New cost must be higher than current cost")
      = Raise (ValueError msg) /\ sample_heap = sample_heap)).
Proof.
  assert (exec (DecreasePriority (mkItem 20 3)) sample_heap
          = (Raise (ValueError "New cost must be higher than current cost"),
             sample_heap)) as Hrun by (vm_compute; reflexivity).
  split; [exact sample_heap_reachable|]. split; [exact Hrun|].
  exact (call_exception_safety sample_heap _ _ _ sample_heap_reachable Hrun).
Defined.

(** X13 ([pop] returns what [front] shows). On every reachable heap [pop]
    returns exactly what [front] returns; the items held before are that
    item, if any, and the items held after; no item left is cheaper than
    the one returned; and the arity stays. *)
Theorem pop_returns_front h :
  reachable h ->
  exists r h', front h = (Ok r, h) /\ pop h = (Ok r, h') /\
    d h' = d h /\
    heap h ≡ₚ option_list r ++ heap h' /\
    forall x y, r = Some x -> y ∈ heap h' -> (cost x <= cost y)%Z.
Proof.
  intros Hr. apply reachable_Inv in Hr as HI.
  destruct (pop_cases h HI)
    as [(Hnil & Hrun)|(x0 & rest & h1 & Hh & Hrun & HI1 & Hd & Hp)].
  - exists None, h. split; [by apply front_empty|]. split; [done|].
    split; [done|]. split; [done|]. by intros x y [=].
  - exists (Some x0), h1. split; [by eapply front_nonempty|].
    split; [done|]. split; [done|]. split; [done|].
    intros x y [= <-] Hy.
    assert (y ∈ heap h) as Hyh by (rewrite Hp; by right).
    apply list_elem_of_lookup in Hyh as [i Hi].
    eapply (root_min (d h) (heap h) x0); eauto using inv_order.
    by rewrite Hh.
Qed.

Lemma pop_returns_front_witness :
  reachable sample_heap /\
  exists r h', front sample_heap = (Ok r, sample_heap) /\
    pop sample_heap = (Ok r, h') /\
    d h' = d sample_heap /\
    heap sample_heap ≡ₚ option_list r ++ heap h' /\
    forall x y, r = Some x -> y ∈ heap h' -> (cost x <= cost y)%Z.
Proof.
  split; [exact sample_heap_reachable|].
  exact (pop_returns_front sample_heap sample_heap_reachable).
Defined.

(** X14 ([insert] of a new number). On every reachable heap, inserting an
    item whose number no held item has returns; afterwards the heap holds
    that item and the items it held, and the arity is the same. *)
Theorem insert_fresh_succeeds h item :
  reachable h -> (forall x, x ∈ heap h -> number x <> number item) ->
  exists h', insert item h = (Ok tt, h') /\
    heap h' ≡ₚ item :: heap h /\ d h' = d h /\ reachable h'.
Proof.
  intros Hr Hfresh. apply reachable_Inv in Hr as HI.
  destruct (insert_spec item h HI) as (h' & Hrun & _ & Hd & Hp).
  { eapply consistent_absent; eauto using inv_map. }
  exists h'. repeat split; try done.
  apply (reach_call (Insert item) h (Ok VNone) h' Hr).
  simpl. by rewrite (bind_ok _ _ _ _ _ Hrun).
Qed.

Lemma insert_fresh_succeeds_witness :
  reachable sample_heap /\
  (forall x, x ∈ heap sample_heap -> number x <> number (mkItem 40 5)) /\
  exists h', insert (mkItem 40 5) sample_heap = (Ok tt, h') /\
    heap h' ≡ₚ mkItem 40 5 :: heap sample_heap /\ d h' = d sample_heap /\
    reachable h'.
Proof.
  assert (forall x, x ∈ heap sample_heap ->
            number x <> number (mkItem 40 5)) as Hf.
  { intros x Hx. apply list_elem_of_In in Hx. simpl in Hx.
    destruct Hx as [<-|[<-|[<-|[]]]]; simpl; lia. }
  split; [exact sample_heap_reachable|]. split; [exact Hf|].
  exact (insert_fresh_succeeds sample_heap (mkItem 40 5)
           sample_heap_reachable Hf).
Defined.

(** X15 ([insert] then [pop]). On every reachable heap, inserting an item
    of a new number that is strictly cheaper than every item held, then
    popping, returns that very item and leaves a heap holding the items
    held before. *)
Theorem insert_min_then_pop h item :
  reachable h ->
  (forall x, x ∈ heap h ->
     number x <> number item /\ (cost item < cost x)%Z) ->
  exists h', (insert item ;;; pop) h = (Ok (Some item), h') /\
    heap h' ≡ₚ heap h /\ d h' = d h.
Proof.
  intros Hr Hnew. apply reachable_Inv in Hr as HI.
  destruct (insert_spec item h HI) as (h1 & Hrun & HI1 & Hd & Hp).
  { eapply consistent_absent; eauto using inv_map.
    intros x Hx. by apply Hnew. }
  rewrite (bind_ok _ _ _ _ _ Hrun).
  destruct (pop_cases h1 HI1)
    as [(Hnil & _)|(x0 & rest & h2 & Hh & Hrun2 & HI2 & Hd2 & Hp2)].
  { rewrite Hnil in Hp. by apply Permutation_nil_cons in Hp. }
  assert (item ∈ heap h1) as Hitem by (rewrite Hp; by left).
  assert (x0 ∈ heap h1) as Hx0 by (rewrite Hh; by left).
  assert (cost x0 <= cost item)%Z as Hle.
  { apply list_elem_of_lookup in Hitem as [i Hi].
    eapply (root_min (d h1) (heap h1) x0); eauto using inv_order.
    by rewrite Hh. }
  assert (x0 = item) as ->.
  { rewrite Hp in Hx0. apply elem_of_cons in Hx0 as [->|Hx0]; [done|].
    destruct (Hnew x0 Hx0). lia. }
  exists h2. split; [done|]. split; [|congruence].
  rewrite Hp in Hp2. by apply Permutation_cons_inv in Hp2.
Qed.

Lemma insert_min_then_pop_witness :
  reachable sample_heap /\
  (forall x, x ∈ heap sample_heap ->
     number x <> number (mkItem 40 5) /\ (cost (mkItem 40 5) < cost x)%Z) /\
  exists h', (insert (mkItem 40 5) ;;; pop) sample_heap
             = (Ok (Some (mkItem 40 5)), h') /\
    heap h' ≡ₚ heap sample_heap /\ d h' = d sample_heap.
Proof.
  assert (forall x, x ∈ heap sample_heap ->
            number x <> number (mkItem 40 5) /\
            (cost (mkItem 40 5) < cost x)%Z) as Hf.
  { intros x Hx. apply list_elem_of_In in Hx. simpl in Hx.
    destruct Hx as [<-|[<-|[<-|[]]]]; simpl; lia. }
  split; [exact sample_heap_reachable|]. split; [exact Hf|].
  exact (insert_min_then_pop sample_heap (mkItem 40 5)
           sample_heap_reachable Hf).
Defined.

(** X16 ([increase_priority] to the front). On every reachable heap, when
    an item with the number given is held and the new cost is strictly
    below the cost of every item held, [increase_priority] returns and
    [front] then returns that number with the new cost. *)
Theorem increase_priority_to_front h item x :
  reachable h -> x ∈ heap h -> number x = number item ->
  (forall y, y ∈ heap h -> (cost item < cost y)%Z) ->
  exists h', increase_priority item h = (Ok tt, h') /\
    front h' = (Ok (Some (mkItem (number item) (cost item))), h').
Proof.
  intros Hr Hx Hnum Hlow. apply reachable_Inv in Hr as HI.
  destruct (consistent_present _ _ _ (inv_map h HI) Hx) as (i & Hi & Hxi).
  rewrite Hnum in Hi.
  destruct (increase_priority_spec item i x h HI Hi Hxi (Hlow x Hx))
    as (h' & Hrun & HI' & Hd & Hp).
  exists h'. split; [done|].
  apply lookup_lt_Some in Hxi as Hlt.
  assert (mkItem (number x) (cost item) ∈ heap h') as Hnew.
  { rewrite Hp. apply list_elem_of_lookup. exists i.
    by apply list_lookup_insert_eq. }
  destruct (front_cases h') as [(Hnil & _)|(r & rest & Hh & Hrun')].
  { rewrite Hnil in Hnew. by apply elem_of_nil in Hnew. }
  rewrite Hrun'. do 3 f_equal.
  assert (cost r <= cost item)%Z as Hle.
  { apply list_elem_of_lookup in Hnew as [k Hk].
    apply (root_min (d h') (heap h') r (inv_order h' HI')
             ltac:(by rewrite Hh) k _ Hk). }
  assert (r ∈ heap h') as Hr' by (rewrite Hh; by left).
  rewrite Hp in Hr'. apply list_elem_of_lookup in Hr' as [k Hk].
  destruct (decide (k = i)) as [->|Hne].
  - rewrite list_lookup_insert_eq in Hk by done. injection Hk as <-.
    by rewrite Hnum.
  - rewrite list_lookup_insert_ne in Hk by done.
    assert (r ∈ heap h) as Hrh by (apply list_elem_of_lookup; eauto).
    specialize (Hlow r Hrh). lia.
Qed.

Lemma increase_priority_to_front_witness :
  reachable sample_heap /\ mkItem 30 30 ∈ heap sample_heap /\
  number (mkItem 30 30) = number (mkItem 30 5) /\
  (forall y, y ∈ heap sample_heap -> (cost (mkItem 30 5) < cost y)%Z) /\
  exists h', increase_priority (mkItem 30 5) sample_heap = (Ok tt, h') /\
    front h'
    = (Ok (Some (mkItem (number (mkItem 30 5)) (cost (mkItem 30 5)))), h').
Proof.
  assert (mkItem 30 30 ∈ heap sample_heap) as Hin
    by (apply list_elem_of_In; simpl; auto).
  assert (forall y, y ∈ heap sample_heap ->
            (cost (mkItem 30 5) < cost y)%Z) as Hlow.
  { intros y Hy. apply list_elem_of_In in Hy. simpl in Hy.
    destruct Hy as [<-|[<-|[<-|[]]]]; simpl; lia. }
  split; [exact sample_heap_reachable|]. split; [exact Hin|].
  split; [reflexivity|]. split; [exact Hlow|].
  exact (increase_priority_to_front sample_heap (mkItem 30 5) (mkItem 30 30)
           sample_heap_reachable Hin eq_refl Hlow).
Defined.

(** X17 (one item per number). In every reachable heap no two positions of
    the backing list hold the same number, the position map has as many
    entries as the list has items, and its keys are the numbers held. *)
Theorem distinct_numbers h :
  reachable h ->
  NoDup (number <$> heap h) /\
  size (position_map h) = length (heap h) /\
  dom (position_map h) = list_to_set (number <$> heap h).
Proof.
  intros Hr. apply reachable_Inv in Hr as [_ _ Hm].
  pose proof (consistent_NoDup _ _ Hm) as Hnd.
  assert (dom (position_map h) = list_to_set (number <$> heap h)) as Hdom.
  { apply set_eq. intros k.
    by rewrite elem_of_list_to_set, (consistent_dom _ _ k Hm). }
  split; [done|]. split; [|done].
  rewrite <- (size_dom (D:=gset Z)), Hdom, size_list_to_set by done.
  apply length_fmap.
Qed.

Lemma distinct_numbers_witness :
  reachable sample_heap /\
  (NoDup (number <$> heap sample_heap) /\
   size (position_map sample_heap) = length (heap sample_heap) /\
   dom (position_map sample_heap)
   = list_to_set (number <$> heap sample_heap)).
Proof.
  split; [exact sample_heap_reachable|].
  exact (distinct_numbers sample_heap sample_heap_reachable).
Defined.

(** X18 ([contains] and [Item.__eq__]). On every reachable heap [contains]
    returns, leaves the state alone, and is true exactly when some item
    held is equal to its argument in the sense of [Item.__eq__], whatever
    the costs. *)
Theorem contains_iff_eq_member h q :
  reachable h ->
  exists b, contains q h = (Ok b, h) /\
    (b = true <-> exists x, x ∈ heap h /\ Item_eq q x = true).
Proof.
  intros Hr. apply reachable_Inv in Hr as HI.
  destruct (position_map h !! number q) as [i|] eqn:E.
  - exists true. split; [by eapply map_mem_true|]. split; [|done].
    intros _. destruct (proj2 (inv_map h HI) _ _ E) as (x & Hx & Hxn).
    exists x. split; [apply list_elem_of_lookup; eauto|].
    unfold Item_eq. by apply bool_decide_eq_true_2.
  - exists false. split; [by apply map_mem_false|]. split; [done|].
    intros (x & Hx & Heq). unfold Item_eq in Heq.
    apply bool_decide_eq_true_1 in Heq.
    destruct (consistent_present _ _ _ (inv_map h HI) Hx) as (i & Hi & _).
    congruence.
Qed.

Lemma contains_iff_eq_member_witness :
  reachable sample_heap /\
  exists b, contains (mkItem 30 999) sample_heap = (Ok b, sample_heap) /\
    (b = true <->
     exists x, x ∈ heap sample_heap /\ Item_eq (mkItem 30 999) x = true).
Proof.
  split; [exact sample_heap_reachable|].
  exact (contains_iff_eq_member sample_heap (mkItem 30 999)
           sample_heap_reachable).
Defined.

(** X19 (the four views of emptiness). On every reachable heap [is_empty]
    returns and leaves the state alone, and it is true exactly when [len]
    is 0, exactly when [front] returns [None], exactly when [pop] returns
    [None], and exactly when [contains] is false of every item. *)
Theorem is_empty_agree h :
  reachable h ->
  exists b, is_empty h = (Ok b, h) /\
    (b = true <-> __len__ h = (Ok 0, h)) /\
    (b = true <-> front h = (Ok None, h)) /\
    (b = true <-> exists h', pop h = (Ok None, h')) /\
    (b = true <-> forall q, contains q h = (Ok false, h)).
Proof.
  intros Hr. apply reachable_Inv in Hr as HI.
  destruct (pop_cases h HI)
    as [(Hnil & Hrun)|(x0 & rest & h1 & Hh & Hrun & _)].
  - exists true. unfold is_empty, __len__, bind, heap_len. rewrite Hnil.
    split; [done|]. split; [done|]. split; [by rewrite front_empty|].
    split; [split; [eauto|done]|]. split; [|done]. intros _ q.
    apply (contains_absent h q HI). intros x Hx. rewrite Hnil in Hx.
    by apply elem_of_nil in Hx.
  - exists false. unfold is_empty, __len__, bind, heap_len. rewrite Hh.
    split; [done|]. split; [done|].
    split; [by rewrite (front_nonempty h x0 rest Hh)|].
    split; [split; [done|]; rewrite Hrun; by intros (h' & [=])|].
    split; [done|]. intros Hnone. specialize (Hnone x0).
    rewrite (contains_present h x0 x0 HI) in Hnone; [done| |done].
    rewrite Hh. by left.
Qed.

Lemma is_empty_agree_witness :
  reachable sample_heap /\
  exists b, is_empty sample_heap = (Ok b, sample_heap) /\
    (b = true <-> __len__ sample_heap = (Ok 0, sample_heap)) /\
    (b = true <-> front sample_heap = (Ok None, sample_heap)) /\
    (b = true <-> exists h', pop sample_heap = (Ok None, h')) /\
    (b = true <-> forall q, contains q sample_heap = (Ok false, sample_heap)).
Proof.
  split; [exact sample_heap_reachable|].
  exact (is_empty_agree sample_heap sample_heap_reachable).
Defined.

(** ** Sorting with the heap *)

Lemma insert_all_spec items : forall h,
  Inv h -> NoDup (number <$> items) ->
  (forall x y, x ∈ heap h -> y ∈ items -> number x <> number y) ->
  exists h', insert_all items h = (Ok tt, h') /\ Inv h' /\
             d h' = d h /\ heap h' ≡ₚ items ++ heap h.
Proof.
  induction items as [|item items IH]; intros h HI Hnd Hfresh; simpl.
  - exists h. split; [done|]. split; [done|]. by split.
  - apply NoDup_cons in Hnd as [Hnotin Hnd].
    destruct (insert_spec item h HI) as (h1 & Hrun & HI1 & Hd & Hp).
    { eapply consistent_absent; eauto using inv_map.
      intros x Hx. apply (Hfresh x item Hx). by left. }
    rewrite (bind_ok _ _ _ _ _ Hrun).
    destruct (IH h1 HI1 Hnd) as (h' & Hrun' & HI' & Hd' & Hp').
    { intros x y Hx Hy. rewrite Hp in Hx.
      apply elem_of_cons in Hx as [->|Hx].
      - intros E. apply Hnotin. rewrite E.
        apply list_elem_of_fmap. by exists y.
      - apply (Hfresh x y Hx). by right. }
    exists h'. split; [done|]. split; [done|]. split; [congruence|].
    rewrite Hp', Hp. by rewrite Permutation_middle.
Qed.

(** X20 (heap sort). For an arity of at least 2 and items of pairwise
    different numbers, constructing a heap, inserting the items one by one
    and popping until [pop] returns [None] returns the same items, each
    costing at least the one before. *)
Theorem heap_sort_sorted arity items :
  (2 <= arity)%Z -> NoDup (number <$> items) ->
  exists out, heap_sort arity items = Ok out /\
    out ≡ₚ items /\ Sorted (fun a b => (cost a <= cost b)%Z) out.
Proof.
  intros Ha Hnd. unfold heap_sort, __init__.
  rewrite decide_False by lia. simpl.
  set (h0 := mkDHeap (Z.to_nat arity) [] ∅).
  assert (Inv h0 /\ heap h0 = []) as [HI0 Hnil].
  { apply (init_Inv arity). unfold __init__. by rewrite decide_False by lia. }
  destruct (insert_all_spec items h0 HI0 Hnd) as (h1 & Hrun & HI1 & _ & Hp).
  { intros x y Hx. by apply elem_of_nil in Hx. }
  rewrite (bind_ok _ _ _ _ _ Hrun).
  unfold pop_all, __len__, bind at 1, heap_len.
  destruct (pop_all_loop_spec (S (length (heap h1))) h1 HI1 ltac:(lia))
    as (out & h2 & Hrun' & _ & Hout & Hs).
  rewrite Hrun'. simpl. exists out. split; [done|].
  split; [|by apply StronglySorted_Sorted].
  rewrite Hout, Hp. simpl. by rewrite app_nil_r.
Qed.

Lemma heap_sort_sorted_witness :
  (2 <= 3)%Z /\
  NoDup (number <$> [mkItem 1 50; mkItem 2 10; mkItem 3 30; mkItem 4 10]) /\
  exists out,
    heap_sort 3 [mkItem 1 50; mkItem 2 10; mkItem 3 30; mkItem 4 10] = Ok out /\
    out ≡ₚ [mkItem 1 50; mkItem 2 10; mkItem 3 30; mkItem 4 10] /\
    Sorted (fun a b => (cost a <= cost b)%Z) out.
Proof.
  assert (2 <= 3)%Z as Ha by lia.
  assert (NoDup (number <$> [mkItem 1 50; mkItem 2 10; mkItem 3 30;
                             mkItem 4 10])) as Hnd
    by (simpl; apply NoDup_ListNoDup; repeat constructor; simpl; lia).
  split; [exact Ha|]. split; [exact Hnd|].
  exact (heap_sort_sorted 3 _ Ha Hnd).
Defined.

(** ** More on how the methods compose *)

(** X21 ([decrease_priority] away from the front). On every reachable
    heap, after a [decrease_priority] that returned, if some held item with
    another number is strictly cheaper than the new cost, [front] returns
    an item with another number than the one changed. *)
Theorem decrease_priority_leaves_front h item h' y :
  reachable h -> decrease_priority item h = (Ok tt, h') ->
  y ∈ heap h -> number y <> number item -> (cost y < cost item)%Z ->
  exists r, front h' = (Ok (Some r), h') /\ number r <> number item /\
            r ∈ heap h.
Proof.
  intros Hr Hrun Hy Hny Hcy. apply reachable_Inv in Hr as HI.
  destruct (decrease_priority_cases item h HI)
    as [(_ & Hrun1)|(i & x & Hi & Hx & Hnum &
          [(_ & h1 & Hrun1 & HI1 & Hd & Hp)|(_ & Hrun1)])];
    rewrite Hrun1 in Hrun; try done.
  injection Hrun as <-. apply lookup_lt_Some in Hx as Hlt.
  assert (y ∈ heap h1) as Hy1.
  { rewrite Hp. apply set_cost_others; [done|congruence|done]. }
  destruct (front_cases h1) as [(Hnil & _)|(r & rest & Hh & Hrun')].
  { rewrite Hnil in Hy1. by apply elem_of_nil in Hy1. }
  exists r. split; [done|].
  assert (cost r <= cost y)%Z as Hle.
  { apply list_elem_of_lookup in Hy1 as [k Hk].
    apply (root_min (d h1) (heap h1) r (inv_order h1 HI1)
             ltac:(by rewrite Hh) k _ Hk). }
  assert (r ∈ heap h1) as Hr1 by (rewrite Hh; by left).
  rewrite Hp in Hr1. apply list_elem_of_lookup in Hr1 as [k Hk].
  destruct (decide (k = i)) as [->|Hne].
  - rewrite list_lookup_insert_eq in Hk by done. injection Hk as <-.
    simpl in Hle. lia.
  - rewrite list_lookup_insert_ne in Hk by done.
    split; [|apply list_elem_of_lookup; eauto].
    intros E. apply Hne.
    eapply (map_consistent_inj _ _ k i r x (inv_map h HI)); eauto.
    congruence.
Qed.

Lemma decrease_priority_leaves_front_witness :
  reachable sample_heap /\
  decrease_priority (mkItem 10 50) sample_heap
  = (Ok tt, mkDHeap 4 [mkItem 20 20; mkItem 30 30; mkItem 10 50]
              (<[10%Z:=2]> (<[20%Z:=0]> (<[30%Z:=1]> ∅)))) /\
  mkItem 30 30 ∈ heap sample_heap /\
  number (mkItem 30 30) <> number (mkItem 10 50) /\
  (cost (mkItem 30 30) < cost (mkItem 10 50))%Z /\
  exists r,
    front (mkDHeap 4 [mkItem 20 20; mkItem 30 30; mkItem 10 50]
             (<[10%Z:=2]> (<[20%Z:=0]> (<[30%Z:=1]> ∅))))
    = (Ok (Some r),
       mkDHeap 4 [mkItem 20 20; mkItem 30 30; mkItem 10 50]
         (<[10%Z:=2]> (<[20%Z:=0]> (<[30%Z:=1]> ∅)))) /\
    number r <> number (mkItem 10 50) /\ r ∈ heap sample_heap.
Proof.
  assert (decrease_priority (mkItem 10 50) sample_heap
          = (Ok tt, mkDHeap 4 [mkItem 20 20; mkItem 30 30; mkItem 10 50]
                      (<[10%Z:=2]> (<[20%Z:=0]> (<[30%Z:=1]> ∅))))) as Hrun
    by (vm_compute; reflexivity).
  assert (mkItem 30 30 ∈ heap sample_heap) as Hin
    by (apply list_elem_of_In; simpl; auto).
  assert (number (mkItem 30 30) <> number (mkItem 10 50)) as Hn
    by (simpl; lia).
  assert (cost (mkItem 30 30) < cost (mkItem 10 50))%Z as Hc
    by (simpl; lia).
  split; [exact sample_heap_reachable|]. split; [exact Hrun|].
  split; [exact Hin|]. split; [exact Hn|]. split; [exact Hc|].
  exact (decrease_priority_leaves_front sample_heap (mkItem 10 50) _
           (mkItem 30 30) sample_heap_reachable Hrun Hin Hn Hc).
Defined.

(** X22 (a priority change undone). On every reachable heap holding [x],
    raising the priority of [x] to a strictly lower cost and then lowering
    it back to the cost of [x] both return, and leave a heap holding the
    items held at the start, with the same arity. *)
Theorem priority_change_undone h x c :
  reachable h -> x ∈ heap h -> (c < cost x)%Z ->
  exists h', (increase_priority (mkItem (number x) c) ;;;
              decrease_priority x) h = (Ok tt, h') /\
    heap h' ≡ₚ heap h /\ d h' = d h.
Proof.
  intros Hr Hx Hc. apply reachable_Inv in Hr as HI.
  destruct (consistent_present _ _ _ (inv_map h HI) Hx) as (i & Hi & Hxi).
  destruct (increase_priority_spec (mkItem (number x) c) i x h HI Hi Hxi Hc)
    as (h1 & Hrun1 & HI1 & Hd1 & Hp1). simpl in Hp1.
  rewrite (bind_ok _ _ _ _ _ Hrun1).
  set (x1 := mkItem (number x) c) in *.
  apply lookup_lt_Some in Hxi as Hlt.
  assert (x1 ∈ heap h1) as Hx1.
  { rewrite Hp1. apply list_elem_of_lookup. exists i.
    by apply list_lookup_insert_eq. }
  destruct (consistent_present _ _ _ (inv_map h1 HI1) Hx1) as (k & Hk & Hxk).
  destruct (decrease_priority_spec x k x1 h1 HI1 Hk Hxk ltac:(simpl; lia))
    as (h2 & Hrun2 & HI2 & Hd2 & Hp2).
  exists h2. split; [done|]. split; [|congruence].
  assert (mkItem (number x1) (cost x) = x) as Ex by (by destruct x).
  rewrite Ex in Hp2.
  apply (Permutation_cons_inv (a:=x1)).
  rewrite Hp2, (insert_cons_perm (heap h1) k x x1 Hxk), Hp1.
  apply (insert_cons_perm (heap h) i x1 x Hxi).
Qed.

Lemma priority_change_undone_witness :
  reachable sample_heap /\ mkItem 30 30 ∈ heap sample_heap /\
  (5 < cost (mkItem 30 30))%Z /\
  exists h', (increase_priority (mkItem (number (mkItem 30 30)) 5) ;;;
              decrease_priority (mkItem 30 30)) sample_heap = (Ok tt, h') /\
    heap h' ≡ₚ heap sample_heap /\ d h' = d sample_heap.
Proof.
  assert (mkItem 30 30 ∈ heap sample_heap) as Hin
    by (apply list_elem_of_In; simpl; auto).
  assert (5 < cost (mkItem 30 30))%Z as Hc by (simpl; lia).
  split; [exact sample_heap_reachable|]. split; [exact Hin|].
  split; [exact Hc|].
  exact (priority_change_undone sample_heap (mkItem 30 30) 5
           sample_heap_reachable Hin Hc).
Defined.

(** X23 ([pop] then [insert]). On every reachable heap, an item that [pop]
    returned can be inserted again at once: the [insert] returns and leaves
    a heap holding the items held before the [pop], with the same arity. *)
Theorem pop_then_reinsert h x h1 :
  reachable h -> pop h = (Ok (Some x), h1) ->
  exists h2, insert x h1 = (Ok tt, h2) /\
    heap h2 ≡ₚ heap h /\ d h2 = d h.
Proof.
  intros Hr Hrun. apply reachable_Inv in Hr as HI.
  destruct (pop_cases h HI)
    as [(_ & Hrun1)|(x0 & rest & h1' & _ & Hrun1 & HI1 & Hd & Hp)];
    rewrite Hrun1 in Hrun; [done|].
  injection Hrun as <- <-.
  destruct (insert_spec x0 h1' HI1) as (h2 & Hrun2 & _ & Hd2 & Hp2).
  { eapply consistent_absent; eauto using inv_map.
    intros y Hy Hyn.
    pose proof (consistent_NoDup _ _ (inv_map h HI)) as Hnd.
    rewrite Hp in Hnd. simpl in Hnd. apply NoDup_cons in Hnd as [Hnotin _].
    apply Hnotin. apply list_elem_of_fmap. exists y. by split. }
  exists h2. split; [done|]. split; [by rewrite Hp2, Hp|congruence].
Qed.

Lemma pop_then_reinsert_witness :
  reachable sample_heap /\
  pop sample_heap
  = (Ok (Some (mkItem 10 10)),
     mkDHeap 4 [mkItem 20 20; mkItem 30 30]
       (<[20%Z:=0]> (<[30%Z:=1]> ∅))) /\
  exists h2,
    insert (mkItem 10 10)
      (mkDHeap 4 [mkItem 20 20; mkItem 30 30] (<[20%Z:=0]> (<[30%Z:=1]> ∅)))
    = (Ok tt, h2) /\
    heap h2 ≡ₚ heap sample_heap /\ d h2 = d sample_heap.
Proof.
  assert (pop sample_heap
          = (Ok (Some (mkItem 10 10)),
             mkDHeap 4 [mkItem 20 20; mkItem 30 30]
               (<[20%Z:=0]> (<[30%Z:=1]> ∅)))) as Hrun
    by (vm_compute; reflexivity).
  split; [exact sample_heap_reachable|]. split; [exact Hrun|].
  exact (pop_then_reinsert sample_heap _ _ sample_heap_reachable Hrun).
Defined.

Lemma run_calls_arity cs : forall h rs h',
  Inv h -> run_calls cs h = (rs, h') -> d h' = d h.
Proof.
  induction cs as [|c cs IH]; intros h rs h' HI; simpl.
  - by intros [= <- <-].
  - destruct (exec c h) as [r h1] eqn:E1.
    destruct (run_calls cs h1) as [rs1 h2] eqn:E2. intros [= <- <-].
    destruct (exec_Inv c h r h1 HI E1) as (HI1 & Hd1 & _).
    rewrite (IH h1 rs1 h2 HI1 E2). done.
Qed.

(** X24 (the arity is fixed). Whatever calls are made on a heap after its
    construction, and whatever they return or raise, its arity stays the
    one given to the constructor. *)
Theorem arity_fixed arity h0 cs rs h :
  __init__ arity = Ok h0 -> run_calls cs h0 = (rs, h) ->
  Z.of_nat (d h) = arity /\ (2 <= arity)%Z.
Proof.
  intros Hinit Hrun. pose proof (init_Inv arity h0 Hinit) as [HI _].
  rewrite (run_calls_arity cs h0 rs h HI Hrun).
  unfold __init__ in Hinit. case_decide; [done|].
  injection Hinit as <-. simpl. lia.
Qed.

Lemma arity_fixed_witness :
  __init__ 3 = Ok (mkDHeap 3 [] ∅) /\
  run_calls [Insert (mkItem 7 70); Insert (mkItem 5 50); Pop;
             IncreasePriority (mkItem 7 1); Pop; Pop]
    (mkDHeap 3 [] ∅)
  = ([Ok VNone; Ok VNone; Ok (VItem (mkItem 5 50)); Ok VNone;
      Ok (VItem (mkItem 7 1)); Ok VNone],
     mkDHeap 3 [] ∅) /\
  Z.of_nat (d (mkDHeap 3 [] ∅)) = 3%Z /\ (2 <= 3)%Z.
Proof.
  assert (__init__ 3 = Ok (mkDHeap 3 [] ∅)) as Hinit by reflexivity.
  assert (run_calls [Insert (mkItem 7 70); Insert (mkItem 5 50); Pop;
                     IncreasePriority (mkItem 7 1); Pop; Pop]
            (mkDHeap 3 [] ∅)
          = ([Ok VNone; Ok VNone; Ok (VItem (mkItem 5 50)); Ok VNone;
              Ok (VItem (mkItem 7 1)); Ok VNone],
             mkDHeap 3 [] ∅)) as Hrun by (vm_compute; reflexivity).
  split; [exact Hinit|]. split; [exact Hrun|].
  exact (arity_fixed 3 _ _ _ _ Hinit Hrun).
Defined.
